(** * Binary search tree of DSA-Labs/Binary_tree.py

    The Python program keeps its tree as [BSTNode] objects that point at
    each other and are updated in place.  The development below keeps that
    shape: an object store of nodes addressed by location, a [root] field,
    and the methods of the source written as commands of a small state and
    error monad.  Recursion depth and the loop of the breadth-first
    traversal are bounded by a [fuel] argument; the theorems show that
    enough fuel always exists on the trees the program can build, and how
    much: the number of keys inserted.

    Keys are Python integers, as in the script, hence [Z] with [<] and
    [==] as [Z.ltb] and [Z.eqb].  [print] is modelled by returning the
    sequence of keys printed. *)

From Stdlib Require Import ZArith Lia.
From Stdlib Require Import Sorting.Sorted Sorting.Permutation.
From stdpp Require Import list sets sorting.

(** ** The object store *)

(** A location is the index of a node object in the store: the [n]-th
    [BSTNode] ever constructed lives at location [n]. *)
Abbreviation loc := nat (only parsing).

(** [class BSTNode]: a key and two child references; [None] is Python's
    [None]. *)
Record BSTNode : Type := mkNode {
  data : Z;
  left : option loc;
  right : option loc
}.

(** [BSTNode.__init__(self, data)]. *)
Definition BSTNode_init (d : Z) : BSTNode :=
  {| data := d; left := None; right := None |}.

(** The memory a [BST] object lives in: the node objects and the [root]
    attribute of the tree. *)
Record state : Type := mkState {
  store : list BSTNode;
  root : option loc
}.

(** [BST.__init__(self)]: no node yet, [self.root = None]. *)
Definition BST_init : state := {| store := []; root := None |}.

(** ** Commands *)

(** A command reads and writes the state and may fail (a dangling
    reference, or the fuel running out). *)
Definition M (A : Type) : Type := state -> option (A * state).

Definition ret {A : Type} (x : A) : M A := fun s => Some (x, s).

Definition bind {A B : Type} (m : M A) (f : A -> M B) : M B :=
  fun s => match m s with
           | Some (x, s') => f x s'
           | None => None
           end.

Definition fail {A : Type} : M A := fun _ => None.

Notation "x <- m ;; k" := (bind m (fun x => k))
  (at level 100, m at next level, right associativity).

(** Attribute reads [node.data], [node.left], [node.right]. *)
Definition get_field {A : Type} (f : BSTNode -> A) (a : loc) : M A :=
  fun s => match store s !! a with
           | Some nd => Some (f nd, s)
           | None => None
           end.

Definition get_data : loc -> M Z := get_field data.
Definition get_left : loc -> M (option loc) := get_field left.
Definition get_right : loc -> M (option loc) := get_field right.

(** Attribute writes [node.left = v] and [node.right = v]. *)
Definition set_left (a : loc) (v : option loc) : M unit :=
  fun s => match store s !! a with
           | Some nd =>
               Some (tt, {| store := <[a := {| data := data nd; left := v;
                                                right := right nd |}]> (store s);
                            root := root s |})
           | None => None
           end.

Definition set_right (a : loc) (v : option loc) : M unit :=
  fun s => match store s !! a with
           | Some nd =>
               Some (tt, {| store := <[a := {| data := data nd; left := left nd;
                                                right := v |}]> (store s);
                            root := root s |})
           | None => None
           end.

(** [BSTNode(d)]: a new object at the next free location. *)
Definition new_node (d : Z) : M loc :=
  fun s => Some (length (store s),
                 {| store := store s ++ [BSTNode_init d]; root := root s |}).

(** [self.root] and [self.root = v]. *)
Definition get_root : M (option loc) := fun s => Some (root s, s).

Definition set_root (v : option loc) : M unit :=
  fun s => Some (tt, {| store := store s; root := v |}).

(** ** The methods of [class BST] *)

(** [BST._insert(self, node, data)]; one unit of fuel per call. *)
Fixpoint _insert (fuel : nat) (node : loc) (d : Z) : M unit :=
  match fuel with
  | O => fail
  | S fuel' =>
      k <- get_data node ;;
      if (d <? k)%Z then
        l <- get_left node ;;
        match l with
        | None => n <- new_node d ;; set_left node (Some n)
        | Some l' => _insert fuel' l' d
        end
      else
        r <- get_right node ;;
        match r with
        | None => n <- new_node d ;; set_right node (Some n)
        | Some r' => _insert fuel' r' d
        end
  end.

(** [BST.insert(self, data)]. *)
Definition insert (fuel : nat) (d : Z) : M unit :=
  r <- get_root ;;
  match r with
  | None => n <- new_node d ;; set_root (Some n)
  | Some r' => _insert fuel r' d
  end.

(** [BST._search(self, node, data)]. *)
Fixpoint _search (fuel : nat) (node : option loc) (d : Z) : M bool :=
  match node with
  | None => ret false
  | Some a =>
      match fuel with
      | O => fail
      | S fuel' =>
          k <- get_data a ;;
          if (k =? d)%Z then ret true
          else if (d <? k)%Z then
            l <- get_left a ;; _search fuel' l d
          else
            r <- get_right a ;; _search fuel' r d
      end
  end.

(** [BST.search(self, data)]. *)
Definition search (fuel : nat) (d : Z) : M bool :=
  r <- get_root ;; _search fuel r d.

(** [BST.inorder_traversal(self, node)]; the result is the sequence of
    keys printed. *)
Fixpoint inorder_traversal (fuel : nat) (node : option loc) : M (list Z) :=
  match node with
  | None => ret []
  | Some a =>
      match fuel with
      | O => fail
      | S fuel' =>
          l <- get_left a ;;
          out1 <- inorder_traversal fuel' l ;;
          k <- get_data a ;;
          r <- get_right a ;;
          out2 <- inorder_traversal fuel' r ;;
          ret (out1 ++ k :: out2)
      end
  end.

(** The [while queue:] loop of [level_order_traversal]; one unit of fuel
    per iteration.  The result lists the nodes dequeued, each with the key
    printed for it. *)
Fixpoint level_order_loop (fuel : nat) (queue : list loc)
  : M (list (loc * Z)) :=
  match queue with
  | [] => ret []
  | node :: queue1 =>
      match fuel with
      | O => fail
      | S fuel' =>
          k <- get_data node ;;
          l <- get_left node ;;
          let queue2 := match l with
                        | Some c => queue1 ++ [c]
                        | None => queue1
                        end in
          r <- get_right node ;;
          let queue3 := match r with
                        | Some c => queue2 ++ [c]
                        | None => queue2
                        end in
          out <- level_order_loop fuel' queue3 ;;
          ret ((node, k) :: out)
      end
  end.

(** [level_order_traversal(root)]. *)
Definition level_order_traversal (fuel : nat) (root : option loc)
  : M (list (loc * Z)) :=
  match root with
  | None => ret []
  | Some r => level_order_loop fuel [r]
  end.

(** The keys printed by the level-order traversal. *)
Definition level_order_keys (fuel : nat) (root : option loc) : M (list Z) :=
  out <- level_order_traversal fuel root ;; ret (map snd out).

(** ** Sequences of inserts *)

(** [inserts s K s']: calling [insert] with the keys of [K], in order,
    from state [s] ends in state [s']. *)
Inductive inserts : state -> list Z -> state -> Prop :=
| inserts_nil s : inserts s [] s
| inserts_cons s fuel k s1 K s2 :
    insert fuel k s = Some (tt, s1) ->
    inserts s1 K s2 ->
    inserts s (k :: K) s2.

(** The trees a program can build: a fresh tree and a sequence of
    inserts. *)
Definition built (K : list Z) (s : state) : Prop := inserts BST_init K s.

(** The same as a function, for running examples. *)
Fixpoint insert_all (fuel : nat) (K : list Z) : M unit :=
  match K with
  | [] => ret tt
  | k :: K' => _ <- insert fuel k ;; insert_all fuel K'
  end.

(** ** The tree a state holds, as a value *)

(** A binary tree whose nodes carry their location and their key. *)
Inductive ltree : Type :=
| Nil : ltree
| Fork (a : loc) (l : ltree) (k : Z) (r : ltree) : ltree.

(** The reference that denotes a tree: [None] for the empty one. *)
Definition top (t : ltree) : option loc :=
  match t with
  | Nil => None
  | Fork a _ _ _ => Some a
  end.

(** Locations and keys, left to right. *)
Fixpoint locs (t : ltree) : list loc :=
  match t with
  | Nil => []
  | Fork a l _ r => locs l ++ a :: locs r
  end.

Fixpoint keys (t : ltree) : list Z :=
  match t with
  | Nil => []
  | Fork _ l k r => keys l ++ k :: keys r
  end.

(** Each node with its key, left to right. *)
Fixpoint cells (t : ltree) : list (loc * Z) :=
  match t with
  | Nil => []
  | Fork a l k r => cells l ++ (a, k) :: cells r
  end.

Fixpoint height (t : ltree) : nat :=
  match t with
  | Nil => 0
  | Fork _ l _ r => S (Nat.max (height l) (height r))
  end.

Fixpoint size (t : ltree) : nat :=
  match t with
  | Nil => 0
  | Fork _ l _ r => S (size l + size r)
  end.

(** [shape h t]: the store [h] holds the tree [t], node for node. *)
Inductive shape (h : list BSTNode) : ltree -> Prop :=
| shape_nil : shape h Nil
| shape_fork a l k r :
    h !! a = Some {| data := k; left := top l; right := top r |} ->
    shape h l ->
    shape h r ->
    shape h (Fork a l k r).

(** [models s t]: the tree of state [s] is [t], and no node object occurs
    twice in it. *)
Definition models (s : state) (t : ltree) : Prop :=
  top t = root s /\ shape (store s) t /\ NoDup (locs t).

(** The search-tree order on a tree value: smaller keys to the left,
    greater or equal keys to the right. *)
Fixpoint ordered (t : ltree) : Prop :=
  match t with
  | Nil => True
  | Fork _ l k r =>
      ordered l /\ ordered r /\
      Forall (fun x => (x < k)%Z) (keys l) /\
      Forall (fun x => (k <= x)%Z) (keys r)
  end.

(** What [insert] does to the tree value when the new node gets
    location [n]. *)
Fixpoint grow (n : loc) (d : Z) (t : ltree) : ltree :=
  match t with
  | Nil => Fork n Nil d Nil
  | Fork a l k r =>
      if (d <? k)%Z then Fork a (grow n d l) k r
      else Fork a l k (grow n d r)
  end.

(** What [search] answers on the tree value. *)
Fixpoint lookup_key (d : Z) (t : ltree) : bool :=
  match t with
  | Nil => false
  | Fork _ l k r =>
      if (k =? d)%Z then true
      else if (d <? k)%Z then lookup_key d l
      else lookup_key d r
  end.

(** [subtree u t]: [u] is [t] or sits below it. *)
Inductive subtree (u : ltree) : ltree -> Prop :=
| subtree_here : subtree u u
| subtree_left a l k r : subtree u l -> subtree u (Fork a l k r)
| subtree_right a l k r : subtree u r -> subtree u (Fork a l k r).

(** [descends d u t]: the subtree [u] of [t] is met when [_insert]
    descends through [t] with key [d]. *)
Inductive descends (d : Z) (u : ltree) : ltree -> Prop :=
| descends_here : descends d u u
| descends_left a l k r :
    (d < k)%Z -> descends d u l -> descends d u (Fork a l k r)
| descends_right a l k r :
    (k <= d)%Z -> descends d u r -> descends d u (Fork a l k r).

(** ** Notions on the store used to state the properties *)

(** [reach h o b]: node [b] is found from reference [o] by following
    finitely many child links. *)
Inductive reach (h : list BSTNode) : option loc -> loc -> Prop :=
| reach_here a : reach h (Some a) a
| reach_left a nd b :
    h !! a = Some nd -> reach h (left nd) b -> reach h (Some a) b
| reach_right a nd b :
    h !! a = Some nd -> reach h (right nd) b -> reach h (Some a) b.

(** [on_path h o d b]: node [b] is visited when [_insert] descends from
    reference [o] with key [d]. *)
Inductive on_path (h : list BSTNode) (d : Z) : option loc -> loc -> Prop :=
| on_path_here a : on_path h d (Some a) a
| on_path_left a nd b :
    h !! a = Some nd -> (d < data nd)%Z ->
    on_path h d (left nd) b -> on_path h d (Some a) b
| on_path_right a nd b :
    h !! a = Some nd -> (data nd <= d)%Z ->
    on_path h d (right nd) b -> on_path h d (Some a) b.

(** The search-tree invariant, read off the store: below every node of
    the tree, keys to the left are smaller and keys to the right are
    greater or equal. *)
Definition bst_invariant (s : state) : Prop :=
  forall n nd,
    reach (store s) (root s) n ->
    store s !! n = Some nd ->
    (forall m md, reach (store s) (left nd) m -> store s !! m = Some md ->
                  (data md < data nd)%Z) /\
    (forall m md, reach (store s) (right nd) m -> store s !! m = Some md ->
                  (data nd <= data md)%Z).

(** [attaches_at h d p h']: store [h'] is store [h] with one new node of
    key [d], hung on a child reference of the old node [p] that was
    [None]: the left one when [d] is smaller than the key of [p], the right
    one otherwise. *)
Definition attaches_at (h : list BSTNode) (d : Z) (p : loc)
  (h' : list BSTNode) : Prop :=
  exists nd,
    h !! p = Some nd /\
    ((left nd = None /\ (d < data nd)%Z /\
      h' = <[p := {| data := data nd; left := Some (length h);
                     right := right nd |}]> (h ++ [BSTNode_init d])) \/
     (right nd = None /\ (data nd <= d)%Z /\
      h' = <[p := {| data := data nd; left := left nd;
                     right := Some (length h) |}]> (h ++ [BSTNode_init d]))).

Definition attaches (h : list BSTNode) (d : Z) (h' : list BSTNode) : Prop :=
  exists p, attaches_at h d p h'.

(** ** Paths, levels and chains *)

(** One step down a tree: to the left or to the right child. *)
Inductive turn : Type := GoLeft | GoRight.

(** [route h o p b]: following the turns of [p] from reference [o] through
    the child links of store [h] ends at node [b]. *)
Inductive route (h : list BSTNode) : option loc -> list turn -> loc -> Prop :=
| route_here a : route h (Some a) [] a
| route_left a nd p b :
    h !! a = Some nd -> route h (left nd) p b ->
    route h (Some a) (GoLeft :: p) b
| route_right a nd p b :
    h !! a = Some nd -> route h (right nd) p b ->
    route h (Some a) (GoRight :: p) b.

(** Left before right, turn by turn, for two paths of one length. *)
Fixpoint left_of (p q : list turn) : Prop :=
  match p, q with
  | GoLeft :: _, GoRight :: _ => True
  | GoLeft :: p', GoLeft :: q' => left_of p' q'
  | GoRight :: p', GoRight :: q' => left_of p' q'
  | _, _ => False
  end.

(** The order of a breadth-first visit: shorter paths first, and among
    paths of one length the one more to the left first. *)
Definition before (p q : list turn) : Prop :=
  length p < length q \/ (length p = length q /\ left_of p q).

(** The subtree of a tree value at the end of a path. *)
Fixpoint walk (p : list turn) (t : ltree) : ltree :=
  match p, t with
  | [], _ => t
  | _ :: _, Nil => Nil
  | GoLeft :: p', Fork _ l _ _ => walk p' l
  | GoRight :: p', Fork _ _ _ r => walk p' r
  end.




(** What a sequence of inserts does to the tree value when the first new
    node gets location [n]. *)
Fixpoint grow_all (n : loc) (K : list Z) (t : ltree) : ltree :=
  match K with
  | [] => t
  | k :: K' => grow_all (S n) K' (grow n k t)
  end.

(** The tree values without a left child, and without a right child, whose
    nodes are numbered from [i] downwards. *)
Fixpoint right_spine (i : loc) (K : list Z) : ltree :=
  match K with
  | [] => Nil
  | k :: K' => Fork i Nil k (right_spine (S i) K')
  end.

Fixpoint left_spine (i : loc) (K : list Z) : ltree :=
  match K with
  | [] => Nil
  | k :: K' => Fork i (left_spine (S i) K') k Nil
  end.

(** ** The example of the source *)

(** The keys the script inserts, and the state they leave: node [n] is the
    [n]-th key inserted. *)
Definition demo_keys : list Z := [50; 30; 70; 20; 40]%Z.

Definition demo_state : state :=
  {| store := [ {| data := 50; left := Some 1; right := Some 2 |};
                {| data := 30; left := Some 3; right := Some 4 |};
                {| data := 70; left := None; right := None |};
                {| data := 20; left := None; right := None |};
                {| data := 40; left := None; right := None |} ];
     root := Some 0 |}.

(** The state left by inserting the same keys in increasing order. *)
Definition demo_sorted_state : state :=
  {| store := [ {| data := 20; left := None; right := Some 1 |};
                {| data := 30; left := None; right := Some 2 |};
                {| data := 40; left := None; right := Some 3 |};
                {| data := 50; left := None; right := Some 4 |};
                {| data := 70; left := None; right := None |} ];
     root := Some 0 |}.

(** * Properties *)

(** ** Tree values *)

Lemma keys_cells t : keys t = map snd (cells t).
Proof.
  induction t as [|a l IHl k r IHr]; simpl; [reflexivity|].
  rewrite map_app. simpl. now rewrite IHl, IHr.
Qed.

Lemma locs_cells t : locs t = map fst (cells t).
Proof.
  induction t as [|a l IHl k r IHr]; simpl; [reflexivity|].
  rewrite map_app. simpl. now rewrite IHl, IHr.
Qed.

Lemma length_locs t : length (locs t) = size t.
Proof.
  induction t as [|a l IHl k r IHr]; simpl; [reflexivity|].
  rewrite length_app. simpl. lia.
Qed.

Lemma height_le_size t : height t <= size t.
Proof. induction t; simpl; lia. Qed.

Lemma keys_grow n d t : Permutation (keys (grow n d t)) (d :: keys t).
Proof.
  induction t as [|a l IHl k r IHr]; simpl; [reflexivity|].
  destruct (d <? k)%Z; simpl.
  - rewrite IHl. reflexivity.
  - rewrite IHr. rewrite (Permutation_middle _ (k :: _) d).
    apply Permutation_app_head, perm_swap.
Qed.

Lemma locs_grow n d t : Permutation (locs (grow n d t)) (n :: locs t).
Proof.
  induction t as [|a l IHl k r IHr]; simpl; [reflexivity|].
  destruct (d <? k)%Z; simpl.
  - rewrite IHl. reflexivity.
  - rewrite IHr. rewrite (Permutation_middle _ (a :: _) n).
    apply Permutation_app_head, perm_swap.
Qed.

Lemma ordered_grow n d t : ordered t -> ordered (grow n d t).
Proof.
  induction t as [|a l IHl k r IHr]; simpl.
  - intros _. repeat split; constructor.
  - intros (Hl & Hr & Hlt & Hge).
    destruct (d <? k)%Z eqn:E; simpl.
    + apply Z.ltb_lt in E. repeat split; auto.
      eapply Permutation_Forall; [symmetry; apply keys_grow|].
      constructor; assumption.
    + apply Z.ltb_ge in E. repeat split; auto.
      eapply Permutation_Forall; [symmetry; apply keys_grow|].
      constructor; assumption.
Qed.

Lemma lookup_key_In d t : lookup_key d t = true -> In d (keys t).
Proof.
  induction t as [|a l IHl k r IHr]; simpl; [discriminate|].
  destruct (k =? d)%Z eqn:E.
  - apply Z.eqb_eq in E. subst. intros _. apply in_or_app. right. now left.
  - destruct (d <? k)%Z; intros H; apply in_or_app.
    + left. auto.
    + right. right. auto.
Qed.

Lemma In_lookup_key d t : ordered t -> In d (keys t) -> lookup_key d t = true.
Proof.
  induction t as [|a l IHl k r IHr]; simpl; [tauto|].
  intros (Hl & Hr & Hlt & Hge) Hin.
  destruct (k =? d)%Z eqn:E; [reflexivity|].
  apply Z.eqb_neq in E.
  apply in_app_or in Hin. destruct Hin as [Hin|[Hin|Hin]].
  - rewrite Forall_forall in Hlt. apply list_elem_of_In in Hin.
    pose proof (Hlt _ Hin) as Hd.
    apply Z.ltb_lt in Hd. rewrite Hd. apply IHl; auto.
    now apply list_elem_of_In.
  - congruence.
  - rewrite Forall_forall in Hge. apply list_elem_of_In in Hin.
    pose proof (Hge _ Hin) as Hd.
    assert ((d <? k)%Z = false) as -> by (apply Z.ltb_ge; lia).
    apply IHr; auto. now apply list_elem_of_In.
Qed.

Lemma ordered_sorted t : ordered t -> Sorted Z.le (keys t).
Proof.
  intros H. apply StronglySorted_Sorted. revert H.
  induction t as [|a l IHl k r IHr]; simpl; [constructor|].
  intros (Hl & Hr & Hlt & Hge).
  specialize (IHl Hl). specialize (IHr Hr).
  assert (Hk : StronglySorted Z.le (k :: keys r)).
  { constructor; [assumption|exact Hge]. }
  revert IHl Hlt. generalize (keys l) as xs.
  induction xs as [|x xs IH]; simpl; intros Hs Hlt; [assumption|].
  inversion Hs; subst. inversion Hlt; subst.
  constructor; [auto|].
  apply Forall_forall. intros y Hy.
  apply list_elem_of_In in Hy. apply in_app_or in Hy.
  destruct Hy as [Hy|[Hy|Hy]].
  - rewrite Forall_forall in H2. apply H2. now apply list_elem_of_In.
  - subst. lia.
  - rewrite Forall_forall in Hge. apply list_elem_of_In in Hy.
    specialize (Hge _ Hy). lia.
Qed.

(** ** Subtrees *)

Lemma subtree_trans u v t : subtree u v -> subtree v t -> subtree u t.
Proof.
  intros Huv Hvt. induction Hvt.
  - assumption.
  - now apply subtree_left.
  - now apply subtree_right.
Qed.

Lemma subtree_locs u t b : subtree u t -> b ∈ locs u -> b ∈ locs t.
Proof.
  induction 1; simpl; intros Hb; [assumption | |]; set_solver.
Qed.

Lemma subtree_keys u t x : subtree u t -> x ∈ keys u -> x ∈ keys t.
Proof.
  induction 1; simpl; intros Hb; [assumption | |]; set_solver.
Qed.

Lemma subtree_NoDup u t : subtree u t -> NoDup (locs t) -> NoDup (locs u).
Proof.
  induction 1; simpl; intros Hnd; [assumption | |].
  - apply NoDup_app in Hnd. tauto.
  - apply NoDup_app in Hnd. destruct Hnd as (_ & _ & Hnd).
    apply NoDup_cons in Hnd. tauto.
Qed.

Lemma subtree_ordered u t : subtree u t -> ordered t -> ordered u.
Proof. induction 1; simpl; tauto. Qed.

Lemma subtree_shape h u t : subtree u t -> shape h t -> shape h u.
Proof.
  induction 1; intros Hs; [assumption | |]; inversion Hs; subst; auto.
Qed.

Lemma locs_subtree a t :
  a ∈ locs t -> exists l k r, subtree (Fork a l k r) t.
Proof.
  induction t as [|a' l IHl k r IHr]; simpl; intros Hin.
  - inversion Hin.
  - apply elem_of_app in Hin. destruct Hin as [Hin|Hin].
    + destruct (IHl Hin) as (l0 & k0 & r0 & Hsub).
      exists l0, k0, r0. now apply subtree_left.
    + apply elem_of_cons in Hin. destruct Hin as [->|Hin].
      * exists l, k, r. apply subtree_here.
      * destruct (IHr Hin) as (l0 & k0 & r0 & Hsub).
        exists l0, k0, r0. now apply subtree_right.
Qed.

(** ** Stores that hold a tree *)

Lemma shape_lookup h t a l k r :
  shape h t -> subtree (Fork a l k r) t ->
  h !! a = Some {| data := k; left := top l; right := top r |}.
Proof.
  intros Hs Hsub. pose proof (subtree_shape _ _ _ Hsub Hs) as Hu.
  now inversion Hu.
Qed.

Lemma shape_lt h t a : shape h t -> a ∈ locs t -> a < length h.
Proof.
  intros Hs Hin. destruct (locs_subtree _ _ Hin) as (l & k & r & Hsub).
  eapply lookup_lt_Some, shape_lookup; eassumption.
Qed.

Lemma shape_data h t b nd :
  shape h t -> b ∈ locs t -> h !! b = Some nd -> data nd ∈ keys t.
Proof.
  intros Hs Hin Hb. destruct (locs_subtree _ _ Hin) as (l & k & r & Hsub).
  rewrite (shape_lookup _ _ _ _ _ _ Hs Hsub) in Hb.
  injection Hb as <-. simpl.
  eapply subtree_keys; [eassumption|]. simpl. set_solver.
Qed.

Lemma shape_frame h h' t :
  shape h t -> (forall x, x ∈ locs t -> h' !! x = h !! x) -> shape h' t.
Proof.
  induction 1 as [|a l k r Ha Hl IHl Hr IHr]; intros Hfr; constructor.
  - rewrite Hfr; [assumption|]. simpl. set_solver.
  - apply IHl. intros x Hx. apply Hfr. simpl. set_solver.
  - apply IHr. intros x Hx. apply Hfr. simpl. set_solver.
Qed.

Lemma shape_reach h t b : shape h t -> reach h (top t) b <-> b ∈ locs t.
Proof.
  intros Hs. split.
  - revert b. induction Hs as [|a l k r Ha Hl IHl Hr IHr]; intros b Hb; simpl in *.
    + inversion Hb.
    + inversion Hb as [? | ? nd ? Hnd Hre | ? nd ? Hnd Hre]; subst.
      * set_solver.
      * rewrite Ha in Hnd. injection Hnd as <-. simpl in Hre.
        apply IHl in Hre. set_solver.
      * rewrite Ha in Hnd. injection Hnd as <-. simpl in Hre.
        apply IHr in Hre. set_solver.
  - revert b. induction Hs as [|a l k r Ha Hl IHl Hr IHr]; intros b Hb; simpl in *.
    + inversion Hb.
    + apply elem_of_app in Hb. destruct Hb as [Hb|Hb].
      * eapply reach_left; [exact Ha|]. simpl. auto.
      * apply elem_of_cons in Hb. destruct Hb as [->|Hb].
        -- apply reach_here.
        -- eapply reach_right; [exact Ha|]. simpl. auto.
Qed.

(** A store holds at most one tree below a given reference. *)
Lemma shape_unique h t t' : shape h t -> shape h t' -> top t = top t' -> t = t'.
Proof.
  intros Hs. revert t'.
  induction Hs as [|a l k r Ha Hl IHl Hr IHr]; intros t' Hs' Htop.
  - destruct t'; [reflexivity|discriminate].
  - destruct Hs' as [|a' l' k' r' Ha' Hl' Hr']; [discriminate|].
    simpl in Htop. injection Htop as <-.
    rewrite Ha in Ha'. injection Ha' as <- Htl Htr.
    f_equal; auto.
Qed.

(** ** One new node *)

Lemma attaches_at_lt h d p h' : attaches_at h d p h' -> p < length h.
Proof. intros (nd & Hp & _). eapply lookup_lt_Some, Hp. Qed.

Lemma attaches_at_length h d p h' :
  attaches_at h d p h' -> length h' = S (length h).
Proof.
  intros (nd & Hp & [(_ & _ & ->)|(_ & _ & ->)]);
    rewrite length_insert, length_app; simpl; lia.
Qed.

Lemma attaches_at_old h d p h' x :
  attaches_at h d p h' -> x <> p -> x < length h -> h' !! x = h !! x.
Proof.
  intros (nd & Hp & [(_ & _ & ->)|(_ & _ & ->)]) Hne Hlt;
    (rewrite list_lookup_insert_ne by congruence);
    now apply lookup_app_l.
Qed.

Lemma attaches_at_new h d p h' :
  attaches_at h d p h' -> h' !! length h = Some (BSTNode_init d).
Proof.
  intros Hat. pose proof (attaches_at_lt _ _ _ _ Hat) as Hlt.
  destruct Hat as (nd & Hp & [(_ & _ & ->)|(_ & _ & ->)]);
    (rewrite list_lookup_insert_ne by lia);
    (rewrite lookup_app_r by lia);
    now rewrite Nat.sub_diag.
Qed.

Lemma attaches_at_parent h d p h' :
  attaches_at h d p h' ->
  exists nd nd', h !! p = Some nd /\ h' !! p = Some nd' /\
    data nd' = data nd /\
    ((left nd = None /\ (d < data nd)%Z /\ left nd' = Some (length h) /\
      right nd' = right nd) \/
     (right nd = None /\ (data nd <= d)%Z /\ right nd' = Some (length h) /\
      left nd' = left nd)).
Proof.
  intros Hat. pose proof (attaches_at_lt _ _ _ _ Hat) as Hlt.
  destruct Hat as (nd & Hp & [(Hn & Hd & ->)|(Hn & Hd & ->)]);
    exists nd; eexists; (split; [exact Hp|]);
    (split; [apply list_lookup_insert_eq; rewrite length_app; lia|]);
    simpl; (split; [reflexivity|]); [left|right]; auto.
Qed.

(** ** Running the commands *)

Ltac run :=
  unfold bind, get_data, get_left, get_right, get_field, new_node,
    set_left, set_right, get_root, set_root, ret, fail; simpl.

Lemma bind_get_field {A B : Type} (f : BSTNode -> A) a (k : A -> M B) s :
  bind (get_field f a) k s
  = match store s !! a with
    | Some nd => k (f nd) s
    | None => None
    end.
Proof. unfold bind, get_field. now destruct (store s !! a). Qed.

Ltac read_fields :=
  unfold get_data, get_left, get_right; rewrite ?bind_get_field.

Lemma _insert_grows rt d t :
  forall h fuel a l k r,
    t = Fork a l k r -> shape h t -> NoDup (locs t) -> height t <= fuel ->
    exists p h',
      _insert fuel a d {| store := h; root := rt |}
        = Some (tt, {| store := h'; root := rt |}) /\
      p ∈ locs t /\ attaches_at h d p h' /\
      shape h' (grow (length h) d t).
Proof.
  induction t as [|a0 l0 IHl k0 r0 IHr];
    intros h fuel a l k r Heq Hs Hnd Hfuel; [discriminate|].
  injection Heq as -> -> -> ->.
  destruct fuel as [|fuel]; [simpl in Hfuel; lia|]. simpl in Hfuel.
  inversion Hs as [|? ? ? ? Ha Hl Hr]; subst.
  pose proof (lookup_lt_Some _ _ _ Ha) as Halt.
  simpl in Hnd. apply NoDup_app in Hnd. destruct Hnd as (Hndl & Hdisj & Hnd).
  apply NoDup_cons in Hnd. destruct Hnd as (Har & Hndr).
  assert (Hal : a ∉ locs l) by (intros Hin; apply (Hdisj _ Hin); set_solver).
  simpl. run. rewrite Ha. simpl.
  destruct (d <? k)%Z eqn:E.
  - simpl. rewrite Ha. simpl. destruct l as [|al ll kl rl]; simpl.
    + rewrite lookup_app_l by assumption. rewrite Ha. simpl.
      exists a. eexists. split; [reflexivity|].
      split; [set_solver|].
      assert (Hat : attaches_at h d a
                (<[a := {| data := k; left := Some (length h); right := top r |}]>
                   (h ++ [BSTNode_init d]))).
      { exists {| data := k; left := None; right := top r |}.
        split; [assumption|]. left. simpl. apply Z.ltb_lt in E. auto. }
      split; [exact Hat|].
      constructor.
      * simpl. apply list_lookup_insert_eq. rewrite length_app. lia.
      * constructor; [|constructor|constructor].
        apply (attaches_at_new _ _ _ _ Hat).
      * eapply shape_frame; [exact Hr|]. intros x Hx.
        apply (attaches_at_old _ _ _ _ _ Hat).
        -- intros ->. contradiction.
        -- apply (shape_lt h r); assumption.
    + destruct (IHl h fuel al ll kl rl eq_refl Hl Hndl ltac:(lia))
        as (p & h' & Hrun & Hp & Hat & Hsh).
      exists p, h'. split; [exact Hrun|].
      split; [apply elem_of_app; left; exact Hp|]. split; [exact Hat|].
      constructor.
      * rewrite (attaches_at_old _ _ _ _ _ Hat);
          [destruct (d <? kl)%Z; exact Ha| |assumption].
        intros ->. contradiction.
      * exact Hsh.
      * eapply shape_frame; [exact Hr|]. intros x Hx.
        apply (attaches_at_old _ _ _ _ _ Hat).
        -- intros ->. apply (Hdisj _ Hp), elem_of_cons. right. exact Hx.
        -- apply (shape_lt h r); assumption.
  - simpl. rewrite Ha. simpl. destruct r as [|ar lr kr rr]; simpl.
    + rewrite lookup_app_l by assumption. rewrite Ha. simpl.
      exists a. eexists. split; [reflexivity|].
      split; [set_solver|].
      assert (Hat : attaches_at h d a
                (<[a := {| data := k; left := top l; right := Some (length h) |}]>
                   (h ++ [BSTNode_init d]))).
      { exists {| data := k; left := top l; right := None |}.
        split; [assumption|]. right. simpl. apply Z.ltb_ge in E. auto. }
      split; [exact Hat|].
      constructor.
      * simpl. apply list_lookup_insert_eq. rewrite length_app. lia.
      * eapply shape_frame; [exact Hl|]. intros x Hx.
        apply (attaches_at_old _ _ _ _ _ Hat).
        -- intros ->. contradiction.
        -- apply (shape_lt h l); assumption.
      * constructor; [|constructor|constructor].
        apply (attaches_at_new _ _ _ _ Hat).
    + destruct (IHr h fuel ar lr kr rr eq_refl Hr Hndr ltac:(lia))
        as (p & h' & Hrun & Hp & Hat & Hsh).
      exists p, h'. split; [exact Hrun|].
      split; [apply elem_of_app; right; apply elem_of_cons; right; exact Hp|].
      split; [exact Hat|].
      constructor.
      * rewrite (attaches_at_old _ _ _ _ _ Hat);
          [destruct (d <? kr)%Z; exact Ha| |assumption].
        intros ->. contradiction.
      * eapply shape_frame; [exact Hl|]. intros x Hx.
        apply (attaches_at_old _ _ _ _ _ Hat).
        -- intros ->. apply (Hdisj _ Hx), elem_of_cons. right. exact Hp.
        -- apply (shape_lt h l); assumption.
      * exact Hsh.
Qed.

(** More fuel never changes the outcome of a run that succeeded. *)
Lemma _insert_fuel fuel :
  forall fuel' a d s res,
    fuel <= fuel' -> _insert fuel a d s = Some res ->
    _insert fuel' a d s = Some res.
Proof.
  induction fuel as [|fuel IH]; intros fuel' a d s res Hle;
    [discriminate|].
  destruct fuel' as [|fuel']; [lia|].
  simpl. read_fields.
  destruct (store s !! a) as [nd|] eqn:Ha; [|discriminate].
  destruct (d <? data nd)%Z; read_fields; rewrite Ha.
  - destruct (left nd); [|auto]. apply IH. lia.
  - destruct (right nd); [|auto]. apply IH. lia.
Qed.

Lemma insert_fuel fuel fuel' d s res :
  fuel <= fuel' -> insert fuel d s = Some res -> insert fuel' d s = Some res.
Proof.
  intros Hle. unfold insert. run.
  destruct (root s); [|auto]. now apply _insert_fuel.
Qed.

(** [_search] reads only. *)
Lemma _search_reads fuel :
  forall o d s b s', _search fuel o d s = Some (b, s') -> s' = s.
Proof.
  induction fuel as [|fuel IH]; intros o d s b s';
    (destruct o as [a|]; simpl; [|intros [= _ <-]; reflexivity]);
    [discriminate|].
  read_fields.
  destruct (store s !! a) as [nd|] eqn:Ha; [|discriminate].
  destruct (data nd =? d)%Z; [intros [= _ <-]; reflexivity|].
  destruct (d <? data nd)%Z; read_fields; rewrite Ha; apply IH.
Qed.

Lemma _search_fuel fuel :
  forall fuel' o d s res,
    fuel <= fuel' -> _search fuel o d s = Some res ->
    _search fuel' o d s = Some res.
Proof.
  induction fuel as [|fuel IH]; intros fuel' o d s res Hle;
    (destruct o as [a|]; [|destruct fuel'; simpl; auto]);
    [discriminate|].
  destruct fuel' as [|fuel']; [lia|].
  simpl. read_fields.
  destruct (store s !! a) as [nd|] eqn:Ha; [|discriminate].
  destruct (data nd =? d)%Z; [auto|].
  destruct (d <? data nd)%Z; read_fields; rewrite Ha; apply IH; lia.
Qed.

Lemma _search_lookup_key d s t :
  shape (store s) t ->
  forall fuel, height t <= fuel ->
    _search fuel (top t) d s = Some (lookup_key d t, s).
Proof.
  induction 1 as [|a l k r Ha Hl IHl Hr IHr]; intros fuel Hfuel.
  - destruct fuel; reflexivity.
  - simpl in Hfuel. destruct fuel as [|fuel]; [lia|].
    simpl. read_fields. rewrite Ha. simpl.
    destruct (k =? d)%Z; [reflexivity|].
    destruct (d <? k)%Z; read_fields; rewrite Ha; simpl;
      [apply IHl|apply IHr]; lia.
Qed.

(** [inorder_traversal] prints the keys of the tree from left to right and
    leaves the state as it was. *)
Lemma inorder_traversal_keys s t :
  shape (store s) t ->
  forall fuel, height t <= fuel ->
    inorder_traversal fuel (top t) s = Some (keys t, s).
Proof.
  induction 1 as [|a l k r Ha Hl IHl Hr IHr]; intros fuel Hfuel.
  - destruct fuel; reflexivity.
  - simpl in Hfuel. destruct fuel as [|fuel]; [lia|].
    simpl. read_fields. rewrite Ha. simpl.
    unfold bind at 1. rewrite IHl by lia.
    read_fields. rewrite Ha. simpl. read_fields. rewrite Ha. simpl.
    unfold bind. rewrite IHr by lia. reflexivity.
Qed.

(** The loop of the level-order traversal, started on the roots of a list
    of trees held by the store ([None] references are never queued),
    dequeues every node of these trees once and leaves the state as it
    was. *)
Lemma level_order_loop_cells s :
  forall fuel ts,
    Forall (shape (store s)) ts ->
    sum_list_with size ts <= fuel ->
    exists out,
      level_order_loop fuel (omap top ts) s = Some (out, s) /\
      Permutation out (concat (map cells ts)).
Proof.
  induction fuel as [|fuel IH]; intros ts; induction ts as [|t ts IHts];
    intros Hsh Hfuel.
  - exists []. split; reflexivity.
  - inversion Hsh as [|? ? Ht Hts]; subst. simpl in Hfuel.
    destruct t as [|a l k r]; [|simpl in Hfuel; lia].
    apply IHts; [assumption|]. simpl in Hfuel. lia.
  - exists []. split; reflexivity.
  - inversion Hsh as [|? ? Ht Hts]; subst. simpl in Hfuel.
    destruct t as [|a l k r]; [apply IHts; assumption|].
    inversion Ht as [|? ? ? ? Ha Hl Hr]; subst.
    destruct (IH (ts ++ [l; r])) as (out & Hrun & Hperm).
    { apply Forall_app. split; [assumption|]. repeat constructor; assumption. }
    { rewrite sum_list_with_app. simpl in *. lia. }
    exists ((a, k) :: out). split.
    + simpl. read_fields. rewrite Ha. simpl.
      read_fields. rewrite Ha. simpl.
      read_fields. rewrite Ha. simpl.
      unfold bind.
      rewrite omap_app in Hrun. simpl in Hrun.
      destruct (top l), (top r); simpl in *;
        rewrite <- ?app_assoc; simpl; rewrite ?app_nil_r in Hrun; unfold omap in Hrun;
        rewrite Hrun; reflexivity.
    + simpl. rewrite Hperm, map_app, concat_app. simpl.
      rewrite app_nil_r.
      rewrite <- (Permutation_middle (cells l) _ (a, k)). simpl.
      apply perm_skip.
      rewrite (Permutation_app_comm (concat (map cells ts))).
      now rewrite <- app_assoc.
Qed.

(** ** What one [insert] does to a state that holds a tree *)

Lemma models_init : models BST_init Nil.
Proof. repeat split; constructor. Qed.

Lemma insert_models s t d fuel :
  models s t -> height t <= fuel ->
  exists s',
    insert fuel d s = Some (tt, s') /\
    models s' (grow (length (store s)) d t) /\
    (root s = None ->
     s' = {| store := store s ++ [BSTNode_init d];
             root := Some (length (store s)) |}) /\
    (root s <> None ->
     root s' = root s /\
     exists p, p ∈ locs t /\ attaches_at (store s) d p (store s')).
Proof.
  destruct s as [h rt]. intros (Htop & Hsh & Hnd) Hfuel. simpl in *.
  assert (Hfresh : length h ∉ locs t).
  { intros Hin. pose proof (shape_lt _ _ _ Hsh Hin). lia. }
  assert (Hnd' : NoDup (locs (grow (length h) d t))).
  { rewrite locs_grow. apply NoDup_cons. split; assumption. }
  destruct t as [|a l k r]; simpl in Htop; subst rt.
  - eexists. split; [reflexivity|]. simpl.
    split; [|split; [reflexivity|congruence]].
    split; [reflexivity|]. split; [|exact Hnd']. simpl.
    constructor; [|constructor|constructor].
    simpl. rewrite lookup_app_r by lia. now rewrite Nat.sub_diag.
  - destruct (_insert_grows (Some a) d (Fork a l k r) h fuel a l k r
                eq_refl Hsh Hnd Hfuel) as (p & h' & Hrun & Hp & Hat & Hsh').
    exists {| store := h'; root := Some a |}.
    split; [exact Hrun|]. simpl.
    split; [|split; [congruence|intros _; split; [reflexivity|eauto]]].
    split; [|split; assumption].
    now destruct (d <? k)%Z.
Qed.

(** A successful [insert], whatever its fuel, is the one described by
    [insert_models]. *)
Lemma insert_inv s t d fuel s' :
  models s t -> insert fuel d s = Some (tt, s') ->
  models s' (grow (length (store s)) d t) /\
  (root s = None ->
   s' = {| store := store s ++ [BSTNode_init d];
           root := Some (length (store s)) |}) /\
  (root s <> None ->
   root s' = root s /\
   exists p, p ∈ locs t /\ attaches_at (store s) d p (store s')).
Proof.
  intros Hm Hrun.
  destruct (insert_models s t d (Nat.max fuel (height t)) Hm ltac:(lia))
    as (s2 & Hrun2 & Hspec).
  apply (insert_fuel fuel (Nat.max fuel (height t))) in Hrun; [|lia].
  rewrite Hrun in Hrun2. injection Hrun2 as <-. exact Hspec.
Qed.

Lemma insert_inv_length s t d fuel s' :
  models s t -> insert fuel d s = Some (tt, s') ->
  length (store s') = S (length (store s)).
Proof.
  intros Hm Hrun. destruct (insert_inv _ _ _ _ _ Hm Hrun) as (_ & Hn & Hs).
  destruct (root s) as [r|] eqn:Hr.
  - destruct Hs as (_ & p & _ & Hat); [discriminate|].
    eapply attaches_at_length, Hat.
  - rewrite (Hn eq_refl). simpl. rewrite length_app. simpl. lia.
Qed.

Lemma insert_inv_new s t d fuel s' :
  models s t -> insert fuel d s = Some (tt, s') ->
  store s' !! length (store s) = Some (BSTNode_init d).
Proof.
  intros Hm Hrun. destruct (insert_inv _ _ _ _ _ Hm Hrun) as (_ & Hn & Hs).
  destruct (root s) as [r|] eqn:Hr.
  - destruct Hs as (_ & p & _ & Hat); [discriminate|].
    eapply attaches_at_new, Hat.
  - rewrite (Hn eq_refl). simpl. rewrite lookup_app_r by lia.
    now rewrite Nat.sub_diag.
Qed.

(** ** Sequences of inserts *)

Lemma inserts_models s K s' :
  inserts s K s' ->
  forall t, models s t -> ordered t ->
    exists t', models s' t' /\ ordered t' /\
               Permutation (keys t') (keys t ++ K) /\
               length (store s') = length (store s) + length K.
Proof.
  induction 1 as [s|s fuel k s1 K s2 Hrun Hrest IH]; intros t Hm Ho.
  - exists t. rewrite app_nil_r. simpl. repeat split; auto; apply Hm.
  - pose proof (insert_inv _ _ _ _ _ Hm Hrun) as (Hm1 & _).
    pose proof (insert_inv_length _ _ _ _ _ Hm Hrun) as Hlen.
    destruct (IH _ Hm1 (ordered_grow _ _ _ Ho)) as (t' & Hm' & Ho' & Hk & Hl).
    exists t'. repeat split; try apply Hm'; auto.
    + rewrite Hk, keys_grow. simpl. apply Permutation_middle.
    + rewrite Hl, Hlen. simpl. lia.
Qed.

Lemma built_models K s :
  built K s ->
  exists t, models s t /\ ordered t /\ Permutation (keys t) K /\
            length (store s) = length K.
Proof.
  intros Hb.
  destruct (inserts_models _ _ _ Hb Nil models_init I) as (t & H1 & H2 & H3 & H4).
  exists t. auto.
Qed.

Lemma inserts_total K :
  forall s t, models s t -> exists s', inserts s K s'.
Proof.
  induction K as [|k K IH]; intros s t Hm.
  - exists s. constructor.
  - destruct (insert_models s t k (height t) Hm (le_n _))
      as (s1 & Hrun & Hm1 & _).
    destruct (IH _ _ Hm1) as (s2 & Hrest).
    exists s2. econstructor; eassumption.
Qed.

Lemma inserts_app s K1 s1 K2 s2 :
  inserts s K1 s1 -> inserts s1 K2 s2 -> inserts s (K1 ++ K2) s2.
Proof.
  induction 1; intros Hrest; simpl; [assumption|].
  econstructor; eauto.
Qed.

Lemma inserts_deterministic s K s1 :
  inserts s K s1 -> forall s2, inserts s K s2 -> s1 = s2.
Proof.
  induction 1 as [s|s f1 k sa K s1 Hrun1 Hrest1 IH]; intros s2 H2;
    inversion H2 as [|? f2 ? sb ? ? Hrun2 Hrest2]; subst; [reflexivity|].
  apply (insert_fuel f1 (Nat.max f1 f2)) in Hrun1; [|lia].
  apply (insert_fuel f2 (Nat.max f1 f2)) in Hrun2; [|lia].
  rewrite Hrun1 in Hrun2. injection Hrun2 as <-. auto.
Qed.

(** ** Fuel and the traversals *)

Lemma bind_Some {A B : Type} (m : M A) (k : A -> M B) s res :
  bind m k s = Some res ->
  exists x s1, m s = Some (x, s1) /\ k x s1 = Some res.
Proof.
  unfold bind. destruct (m s) as [[x s1]|]; [eauto|discriminate].
Qed.

Lemma bind_run {A B : Type} (m : M A) (k : A -> M B) s x s1 :
  m s = Some (x, s1) -> bind m k s = k x s1.
Proof. unfold bind. now intros ->. Qed.

Lemma inorder_traversal_fuel fuel :
  forall fuel' o s res,
    fuel <= fuel' -> inorder_traversal fuel o s = Some res ->
    inorder_traversal fuel' o s = Some res.
Proof.
  induction fuel as [|fuel IH]; intros fuel' o s res Hle;
    (destruct o as [a|]; [|destruct fuel'; simpl; auto]);
    [discriminate|].
  destruct fuel' as [|fuel']; [lia|]. simpl. intros H.
  apply bind_Some in H as (l & s1 & H1 & H). rewrite (bind_run _ _ _ _ _ H1).
  apply bind_Some in H as (o1 & s2 & H2 & H).
  apply (IH fuel') in H2; [|lia]. rewrite (bind_run _ _ _ _ _ H2).
  apply bind_Some in H as (k & s3 & H3 & H). rewrite (bind_run _ _ _ _ _ H3).
  apply bind_Some in H as (r & s4 & H4 & H). rewrite (bind_run _ _ _ _ _ H4).
  apply bind_Some in H as (o2 & s5 & H5 & H).
  apply (IH fuel') in H5; [|lia]. rewrite (bind_run _ _ _ _ _ H5).
  exact H.
Qed.

Lemma level_order_loop_fuel fuel :
  forall fuel' q s res,
    fuel <= fuel' -> level_order_loop fuel q s = Some res ->
    level_order_loop fuel' q s = Some res.
Proof.
  induction fuel as [|fuel IH]; intros fuel' q s res Hle;
    (destruct q as [|a q]; [destruct fuel'; simpl; auto|]);
    [discriminate|].
  destruct fuel' as [|fuel']; [lia|]. simpl. intros H.
  apply bind_Some in H as (k & s1 & H1 & H). rewrite (bind_run _ _ _ _ _ H1).
  apply bind_Some in H as (l & s2 & H2 & H). rewrite (bind_run _ _ _ _ _ H2).
  apply bind_Some in H as (r & s3 & H3 & H). rewrite (bind_run _ _ _ _ _ H3).
  apply bind_Some in H as (out & s4 & H4 & H).
  apply (IH fuel') in H4; [|lia]. rewrite (bind_run _ _ _ _ _ H4).
  exact H.
Qed.

Lemma level_order_keys_fuel fuel fuel' o s res :
  fuel <= fuel' -> level_order_keys fuel o s = Some res ->
  level_order_keys fuel' o s = Some res.
Proof.
  intros Hle. unfold level_order_keys, level_order_traversal. intros H.
  apply bind_Some in H as (out & s1 & H1 & H).
  destruct o as [a|].
  - apply (level_order_loop_fuel _ fuel') in H1; [|assumption].
    now rewrite (bind_run _ _ _ _ _ H1).
  - now rewrite (bind_run _ _ _ _ _ H1).
Qed.

Lemma search_fuel fuel fuel' d s res :
  fuel <= fuel' -> search fuel d s = Some res -> search fuel' d s = Some res.
Proof. intros Hle. unfold search. run. now apply _search_fuel. Qed.

(** ** From tree values back to the store *)

Lemma length_keys t : length (keys t) = size t.
Proof.
  induction t as [|a l IHl k r IHr]; simpl; [reflexivity|].
  rewrite length_app. simpl. lia.
Qed.

Lemma built_tree K s :
  built K s ->
  exists t, models s t /\ ordered t /\ Permutation (keys t) K /\
            size t = length K /\ height t <= length K /\
            length (store s) = length K.
Proof.
  intros Hb. destruct (built_models _ _ Hb) as (t & Hm & Ho & Hk & Hl).
  exists t. repeat split; try apply Hm; auto.
  - now rewrite <- length_keys, Hk.
  - rewrite <- (Permutation_length Hk), length_keys. apply height_le_size.
Qed.

Lemma models_bst_invariant s t : models s t -> ordered t -> bst_invariant s.
Proof.
  intros (Htop & Hsh & Hnd) Ho n nd Hreach Hn.
  rewrite <- Htop in Hreach. apply (shape_reach _ _ _ Hsh) in Hreach.
  destruct (locs_subtree _ _ Hreach) as (l & k & r & Hsub).
  rewrite (shape_lookup _ _ _ _ _ _ Hsh Hsub) in Hn. injection Hn as <-.
  pose proof (subtree_shape _ _ _ Hsub Hsh) as Hu.
  pose proof (subtree_ordered _ _ Hsub Ho) as (_ & _ & Hlt & Hge).
  inversion Hu as [|? ? ? ? _ Hl Hr]; subst. simpl.
  split; intros m md Hm Hmd.
  - apply (shape_reach _ _ _ Hl) in Hm.
    pose proof (shape_data _ _ _ _ Hl Hm Hmd) as Hin.
    rewrite Forall_forall in Hlt. auto.
  - apply (shape_reach _ _ _ Hr) in Hm.
    pose proof (shape_data _ _ _ _ Hr Hm Hmd) as Hin.
    rewrite Forall_forall in Hge. auto.
Qed.

(** No node is below itself, and every node of the tree is an object of
    the store. *)
Lemma models_acyclic s t :
  models s t ->
  forall a nd,
    reach (store s) (root s) a -> store s !! a = Some nd ->
    ~ reach (store s) (left nd) a /\ ~ reach (store s) (right nd) a.
Proof.
  intros (Htop & Hsh & Hnd) a nd Hreach Ha.
  rewrite <- Htop in Hreach. apply (shape_reach _ _ _ Hsh) in Hreach.
  destruct (locs_subtree _ _ Hreach) as (l & k & r & Hsub).
  rewrite (shape_lookup _ _ _ _ _ _ Hsh Hsub) in Ha. injection Ha as <-.
  pose proof (subtree_shape _ _ _ Hsub Hsh) as Hu.
  pose proof (subtree_NoDup _ _ Hsub Hnd) as Hnu.
  inversion Hu as [|? ? ? ? _ Hl Hr]; subst. simpl in *.
  apply NoDup_app in Hnu. destruct Hnu as (_ & Hdisj & Hnu).
  apply NoDup_cons in Hnu. destruct Hnu as (Har & _).
  split; intros Hre.
  - apply (shape_reach _ _ _ Hl) in Hre. apply (Hdisj _ Hre). set_solver.
  - apply (shape_reach _ _ _ Hr) in Hre. contradiction.
Qed.

Lemma descends_subtree d u t : descends d u t -> subtree u t.
Proof.
  induction 1; [apply subtree_here| |];
    [now apply subtree_left|now apply subtree_right].
Qed.

Lemma descends_grow n d u t :
  descends d u t -> subtree (grow n d u) (grow n d t).
Proof.
  induction 1 as [|a l k r Hd Hu IH|a l k r Hd Hu IH]; simpl.
  - apply subtree_here.
  - apply Z.ltb_lt in Hd. rewrite Hd. now apply subtree_left.
  - apply Z.ltb_ge in Hd. rewrite Hd. now apply subtree_right.
Qed.

Lemma on_path_descends h d t b :
  shape h t -> on_path h d (top t) b ->
  exists l k r, descends d (Fork b l k r) t.
Proof.
  induction 1 as [|a l k r Ha Hl IHl Hr IHr]; intros Hp; simpl in Hp.
  - inversion Hp.
  - inversion Hp as [? | ? nd ? Hnd Hd Hrest | ? nd ? Hnd Hd Hrest]; subst.
    + exists l, k, r. apply descends_here.
    + rewrite Ha in Hnd. injection Hnd as <-. simpl in *.
      destruct (IHl Hrest) as (l0 & k0 & r0 & Hdesc).
      exists l0, k0, r0. now apply descends_left.
    + rewrite Ha in Hnd. injection Hnd as <-. simpl in *.
      destruct (IHr Hrest) as (l0 & k0 & r0 & Hdesc).
      exists l0, k0, r0. now apply descends_right.
Qed.

Lemma grow_new_loc n d t : n ∈ locs (grow n d t).
Proof. rewrite locs_grow. set_solver. Qed.

(** The two traversals on a state that holds a tree. *)
Lemma models_inorder s t fuel :
  models s t -> height t <= fuel ->
  inorder_traversal fuel (root s) s = Some (keys t, s).
Proof.
  intros (Htop & Hsh & _) Hfuel. rewrite <- Htop.
  now apply inorder_traversal_keys.
Qed.

Lemma models_level_order s t fuel :
  models s t -> size t <= fuel ->
  exists out,
    level_order_traversal fuel (root s) s = Some (out, s) /\
    Permutation out (cells t).
Proof.
  intros (Htop & Hsh & _) Hfuel. rewrite <- Htop.
  destruct (level_order_loop_cells s fuel [t]) as (out & Hrun & Hperm).
  { repeat constructor. assumption. }
  { simpl. lia. }
  simpl in Hperm. rewrite app_nil_r in Hperm.
  destruct t as [|a l k r].
  - exists []. split; [reflexivity|]. reflexivity.
  - exists out. split; assumption.
Qed.

Lemma models_search s t fuel d :
  models s t -> height t <= fuel ->
  search fuel d s = Some (lookup_key d t, s).
Proof.
  intros (Htop & Hsh & _) Hfuel. unfold search. run. rewrite <- Htop.
  now apply _search_lookup_key.
Qed.

Lemma cells_subtree a k t :
  (a, k) ∈ cells t -> exists l r, subtree (Fork a l k r) t.
Proof.
  induction t as [|a' l IHl k' r IHr]; simpl; intros Hin.
  - inversion Hin.
  - apply elem_of_app in Hin. destruct Hin as [Hin|Hin].
    + destruct (IHl Hin) as (l0 & r0 & Hsub).
      exists l0, r0. now apply subtree_left.
    + apply elem_of_cons in Hin. destruct Hin as [[= -> ->]|Hin].
      * exists l, r. apply subtree_here.
      * destruct (IHr Hin) as (l0 & r0 & Hsub).
        exists l0, r0. now apply subtree_right.
Qed.

Lemma built_search_true K s k fuel :
  built K s -> In k K -> length K <= fuel ->
  search fuel k s = Some (true, s).
Proof.
  intros Hb Hin Hfuel.
  destruct (built_tree _ _ Hb) as (t & Hm & Ho & Hk & _ & Hh & _).
  rewrite (models_search s t fuel k Hm) by lia.
  rewrite In_lookup_key; [reflexivity|assumption|].
  apply list_elem_of_In. rewrite Hk. now apply list_elem_of_In.
Qed.

(** ** The example of the source *)

Lemma insert_all_inserts fuel K :
  forall s s', insert_all fuel K s = Some (tt, s') -> inserts s K s'.
Proof.
  induction K as [|k K IH]; intros s s'; simpl.
  - intros [= <-]. constructor.
  - intros H. apply bind_Some in H as ([] & s1 & H1 & H).
    econstructor; [exact H1|]. now apply IH.
Qed.

Lemma demo_built : built demo_keys demo_state.
Proof. apply (insert_all_inserts 3). reflexivity. Qed.

(** The invariant does tell stores apart: a smaller key may not sit to the
    right, nor a greater one to the left. *)
Example bst_invariant_rejects_left :
  ~ bst_invariant {| store := [ {| data := 1; left := Some 1; right := None |};
                                BSTNode_init 2 ];
                     root := Some 0 |}.
Proof.
  intros H.
  destruct (H 0 _ (reach_here _ 0) eq_refl) as [Hl _].
  specialize (Hl 1 _ (reach_here _ 1) eq_refl). simpl in Hl. lia.
Qed.

Example bst_invariant_rejects_right :
  ~ bst_invariant {| store := [ {| data := 2; left := None; right := Some 1 |};
                                BSTNode_init 1 ];
                     root := Some 0 |}.
Proof.
  intros H.
  destruct (H 0 _ (reach_here _ 0) eq_refl) as [_ Hr].
  specialize (Hr 1 _ (reach_here _ 1) eq_refl). simpl in Hr. lia.
Qed.

(** Out of fuel, or on a reference to no object, a command fails. *)
Example search_out_of_fuel : search 2 40 demo_state = None.
Proof. reflexivity. Qed.

Example level_order_out_of_fuel :
  level_order_keys 4 (root demo_state) demo_state = None.
Proof. reflexivity. Qed.

(** * The properties of the specification *)

(** C1. In every tree built by inserts into a fresh tree, below every
    node the keys of the left subtree are strictly smaller than the key of
    the node and the keys of the right subtree are greater or equal; a
    further insert keeps it so. *)
Theorem insert_keeps_bst_invariant (K : list Z) (s : state) :
  built K s ->
  bst_invariant s /\
  forall fuel k s', insert fuel k s = Some (tt, s') -> bst_invariant s'.
Proof.
  intros Hb. destruct (built_tree _ _ Hb) as (t & Hm & Ho & _).
  split; [exact (models_bst_invariant _ _ Hm Ho)|].
  intros fuel k s' Hrun.
  destruct (insert_inv _ _ _ _ _ Hm Hrun) as (Hm' & _).
  exact (models_bst_invariant _ _ Hm' (ordered_grow _ _ _ Ho)).
Qed.

Lemma insert_keeps_bst_invariant_witness :
  built demo_keys demo_state /\ bst_invariant demo_state.
Proof.
  split; [exact demo_built|].
  exact (proj1 (insert_keeps_bst_invariant _ _ demo_built)).
Defined.

(** C2. After the keys of [K] have been inserted into a fresh tree,
    [search] answers [True] for every key of [K]; a recursion depth of
    [length K] is enough. *)
Theorem search_finds_inserted (K : list Z) (s : state) (k : Z) (fuel : nat) :
  built K s -> In k K -> length K <= fuel ->
  search fuel k s = Some (true, s).
Proof. apply built_search_true. Qed.

Lemma search_finds_inserted_witness :
  search 5 40 demo_state = Some (true, demo_state).
Proof.
  apply (search_finds_inserted demo_keys demo_state 40 5 demo_built).
  - simpl. tauto.
  - simpl. lia.
Defined.

(** C3. After the keys of [K] have been inserted into a fresh tree, the
    in-order traversal from the root prints a non-decreasing sequence that
    is a rearrangement of [K], every key as often as it was inserted. *)
Theorem inorder_is_sorted_keys (K : list Z) (s : state) (fuel : nat) :
  built K s -> length K <= fuel ->
  exists out,
    inorder_traversal fuel (root s) s = Some (out, s) /\
    Sorted Z.le out /\ Permutation out K.
Proof.
  intros Hb Hfuel.
  destruct (built_tree _ _ Hb) as (t & Hm & Ho & Hk & _ & Hh & _).
  exists (keys t). split; [apply models_inorder; [assumption|lia]|].
  split; [now apply ordered_sorted|assumption].
Qed.

Lemma inorder_is_sorted_keys_witness :
  exists out,
    inorder_traversal 5 (root demo_state) demo_state = Some (out, demo_state) /\
    Sorted Z.le out /\ Permutation out demo_keys.
Proof.
  apply (inorder_is_sorted_keys demo_keys demo_state 5 demo_built).
  simpl. lia.
Defined.

(** C4. On a tree built by inserts, the level-order traversal prints the
    same keys as the in-order traversal, each as often, in another order;
    every node it dequeues is found from the root by finitely many child
    links, carries the key printed for it, and is dequeued once. *)
Theorem level_order_visits_all_once (K : list Z) (s : state) (fuel : nat) :
  built K s -> length K <= fuel ->
  exists out ino,
    level_order_traversal fuel (root s) s = Some (out, s) /\
    level_order_keys fuel (root s) s = Some (map snd out, s) /\
    inorder_traversal fuel (root s) s = Some (ino, s) /\
    Permutation (map snd out) ino /\
    (forall a k, In (a, k) out ->
       reach (store s) (root s) a /\
       exists nd, store s !! a = Some nd /\ data nd = k) /\
    NoDup (map fst out).
Proof.
  intros Hb Hfuel.
  destruct (built_tree _ _ Hb) as (t & Hm & Ho & Hk & Hsz & Hh & _).
  destruct (models_level_order s t fuel Hm ltac:(lia)) as (out & Hrun & Hperm).
  exists out, (keys t).
  split; [exact Hrun|].
  split; [unfold level_order_keys; now rewrite (bind_run _ _ _ _ _ Hrun)|].
  split; [apply models_inorder; [assumption|lia]|].
  split; [now rewrite keys_cells, Hperm|].
  destruct Hm as (Htop & Hsh & Hnd).
  split.
  - intros a k Hin. apply list_elem_of_In in Hin. rewrite Hperm in Hin.
    destruct (cells_subtree _ _ _ Hin) as (l & r & Hsub).
    split.
    + rewrite <- Htop. apply (shape_reach _ _ _ Hsh).
      eapply subtree_locs; [exact Hsub|]. simpl. set_solver.
    + eexists. split; [exact (shape_lookup _ _ _ _ _ _ Hsh Hsub)|reflexivity].
  - rewrite Hperm, <- locs_cells. exact Hnd.
Qed.

Lemma level_order_visits_all_once_witness :
  exists out ino,
    level_order_traversal 5 (root demo_state) demo_state
      = Some (out, demo_state) /\
    level_order_keys 5 (root demo_state) demo_state
      = Some (map snd out, demo_state) /\
    inorder_traversal 5 (root demo_state) demo_state
      = Some (ino, demo_state) /\
    Permutation (map snd out) ino /\
    (forall a k, In (a, k) out ->
       reach (store demo_state) (root demo_state) a /\
       exists nd, store demo_state !! a = Some nd /\ data nd = k) /\
    NoDup (map fst out).
Proof.
  apply (level_order_visits_all_once demo_keys demo_state 5 demo_built).
  simpl. lia.
Defined.

(** C5. When [insert] meets, on its way down, a node that already holds
    the key being inserted, the new key goes below the right child
    reference of that node, as a node of its own: the old node keeps its
    key and its left child, and the store has one node more.  Inserting 10
    twice into a fresh tree makes the in-order traversal print 10 twice. *)
Theorem duplicate_goes_right :
  (forall (K : list Z) (s s' : state) (fuel : nat) (k : Z) (n : nat)
          (nd : BSTNode),
      built K s ->
      insert fuel k s = Some (tt, s') ->
      on_path (store s) k (root s) n ->
      store s !! n = Some nd ->
      data nd = k ->
      (exists nd',
          store s' !! n = Some nd' /\ data nd' = k /\ left nd' = left nd /\
          reach (store s') (right nd') (length (store s))) /\
      store s !! length (store s) = None /\
      store s' !! length (store s) = Some (BSTNode_init k) /\
      length (store s') = S (length (store s))) /\
  (forall (s : state) (fuel : nat),
      built [10; 10]%Z s -> 2 <= fuel ->
      inorder_traversal fuel (root s) s = Some ([10; 10]%Z, s)).
Proof.
  split.
  - intros K s s' fuel k n nd Hb Hrun Hpath Hn Hk.
    destruct (built_tree _ _ Hb) as (t & Hm & _).
    destruct (insert_inv _ _ _ _ _ Hm Hrun) as (Hm' & _).
    split; [|split; [apply lookup_ge_None; lia|
             split; [exact (insert_inv_new _ _ _ _ _ Hm Hrun)|
                     exact (insert_inv_length _ _ _ _ _ Hm Hrun)]]].
    destruct Hm as (Htop & Hsh & Hnd). destruct Hm' as (_ & Hsh' & _).
    rewrite <- Htop in Hpath.
    destruct (on_path_descends _ _ _ _ Hsh Hpath) as (l & kk & r & Hdesc).
    rewrite (shape_lookup _ _ _ _ _ _ Hsh (descends_subtree _ _ _ Hdesc)) in Hn.
    injection Hn as <-. simpl in Hk. subst kk.
    pose proof (descends_grow (length (store s)) _ _ _ Hdesc) as Hsub.
    simpl in Hsub. rewrite Z.ltb_irrefl in Hsub.
    pose proof (subtree_shape _ _ _ Hsub Hsh') as Hu.
    inversion Hu as [|? ? ? ? Hn' _ Hr']; subst.
    eexists. split; [exact Hn'|]. simpl.
    split; [reflexivity|]. split; [reflexivity|].
    apply (shape_reach _ _ _ Hr'), grow_new_loc.
  - intros s fuel Hb Hfuel.
    assert (Hrun : built [10; 10]%Z
              {| store := [ {| data := 10; left := None; right := Some 1 |};
                            BSTNode_init 10 ];
                 root := Some 0 |}).
    { apply (insert_all_inserts 1). reflexivity. }
    rewrite (inserts_deterministic _ _ _ Hb _ Hrun).
    apply (inorder_traversal_fuel 2); [assumption|reflexivity].
Qed.

Lemma duplicate_goes_right_witness :
  exists nd',
    [ {| data := 10; left := None; right := Some 1 |}; BSTNode_init 10 ] !! 0
      = Some nd' /\
    data nd' = 10%Z /\ left nd' = None /\
    reach [ {| data := 10; left := None; right := Some 1 |}; BSTNode_init 10 ]
      (right nd') 1.
Proof.
  assert (Hb : built [10]%Z {| store := [BSTNode_init 10]; root := Some 0 |}).
  { apply (insert_all_inserts 0). reflexivity. }
  apply (proj1 (proj1 duplicate_goes_right [10]%Z
           {| store := [BSTNode_init 10]; root := Some 0 |}
           {| store := [ {| data := 10; left := None; right := Some 1 |};
                         BSTNode_init 10 ];
              root := Some 0 |}
           1 10%Z 0 (BSTNode_init 10) Hb eq_refl
           (on_path_here _ _ _) eq_refl eq_refl)).
Defined.

(** C6. Inserting 50, 30, 70, 20, 40 in that order into a fresh tree gives
    a tree whose in-order traversal prints 20 30 40 50 70 and whose
    level-order traversal prints 50 30 70 20 40; searching 40 answers
    [True] and searching 100 answers [False]. *)
Theorem example_usage :
  (exists s, built [50; 30; 70; 20; 40]%Z s) /\
  (forall (s : state) (fuel : nat),
      built [50; 30; 70; 20; 40]%Z s -> 5 <= fuel ->
      inorder_traversal fuel (root s) s = Some ([20; 30; 40; 50; 70]%Z, s) /\
      level_order_keys fuel (root s) s = Some ([50; 30; 70; 20; 40]%Z, s) /\
      search fuel 40 s = Some (true, s) /\
      search fuel 100 s = Some (false, s)).
Proof.
  split; [exists demo_state; exact demo_built|].
  intros s fuel Hb Hfuel.
  rewrite (inserts_deterministic _ _ _ Hb _ demo_built).
  split; [apply (inorder_traversal_fuel 5); [assumption|reflexivity]|].
  split; [apply (level_order_keys_fuel 5); [assumption|reflexivity]|].
  split; apply (search_fuel 5); (assumption || reflexivity).
Qed.

Lemma example_usage_witness :
  inorder_traversal 5 (root demo_state) demo_state
    = Some ([20; 30; 40; 50; 70]%Z, demo_state) /\
  level_order_keys 5 (root demo_state) demo_state
    = Some ([50; 30; 70; 20; 40]%Z, demo_state) /\
  search 5 40 demo_state = Some (true, demo_state) /\
  search 5 100 demo_state = Some (false, demo_state).
Proof.
  apply (proj2 example_usage demo_state 5 demo_built). lia.
Defined.

(** C7. On a fresh tree [search] answers [False] for every key and both
    traversals print nothing. *)
Theorem empty_tree_behaviour (k : Z) (fuel : nat) :
  search fuel k BST_init = Some (false, BST_init) /\
  inorder_traversal fuel (root BST_init) BST_init = Some ([], BST_init) /\
  level_order_traversal fuel (root BST_init) BST_init = Some ([], BST_init) /\
  level_order_keys fuel (root BST_init) BST_init = Some ([], BST_init).
Proof. destruct fuel; repeat split; reflexivity. Qed.

(** C8. An insert only adds: the store gets one new node, a leaf with the
    inserted key; every old node keeps its key, and keeps each child
    reference unless that reference was [None] and now points at the new
    node; one reference in all is written, the root of an empty tree or a
    [None] child reference of one old node.  A search returns the state it
    was given. *)
Theorem insert_only_adds_search_only_reads :
  (forall (K : list Z) (s s' : state) (fuel : nat) (k : Z),
      built K s ->
      insert fuel k s = Some (tt, s') ->
      length (store s') = S (length (store s)) /\
      store s' !! length (store s) = Some (BSTNode_init k) /\
      (forall a nd,
          store s !! a = Some nd ->
          exists nd',
            store s' !! a = Some nd' /\ data nd' = data nd /\
            (left nd' = left nd \/
             left nd = None /\ left nd' = Some (length (store s))) /\
            (right nd' = right nd \/
             right nd = None /\ right nd' = Some (length (store s)))) /\
      (root s = None /\
       s' = {| store := store s ++ [BSTNode_init k];
               root := Some (length (store s)) |} \/
       root s <> None /\ root s' = root s /\
       attaches (store s) k (store s'))) /\
  (forall (s : state) (fuel : nat) (k : Z) (b : bool) (s1 : state),
      search fuel k s = Some (b, s1) -> s1 = s).
Proof.
  split.
  - intros K s s' fuel k Hb Hrun.
    destruct (built_tree _ _ Hb) as (t & Hm & _).
    split; [exact (insert_inv_length _ _ _ _ _ Hm Hrun)|].
    split; [exact (insert_inv_new _ _ _ _ _ Hm Hrun)|].
    destruct (insert_inv _ _ _ _ _ Hm Hrun) as (_ & Hn & Hs).
    destruct (root s) as [r|] eqn:Hr.
    + destruct Hs as (Hroot & p & _ & Hat); [discriminate|].
      split; [|right; split; [discriminate|split; [exact Hroot|]];
               exists p; exact Hat].
      intros a nd Ha. pose proof (lookup_lt_Some _ _ _ Ha) as Hlt.
      destruct (decide (a = p)) as [->|Hne].
      * destruct (attaches_at_parent _ _ _ _ Hat)
          as (nd0 & nd' & Hp & Hp' & Hd & Hlinks).
        rewrite Ha in Hp. injection Hp as <-.
        exists nd'. split; [exact Hp'|]. split; [exact Hd|].
        destruct Hlinks as [(H1 & _ & H2 & H3)|(H1 & _ & H2 & H3)]; auto.
      * exists nd. rewrite (attaches_at_old _ _ _ _ _ Hat Hne Hlt). auto.
    + specialize (Hn eq_refl). subst s'. simpl.
      split; [|left; split; reflexivity].
      intros a nd Ha. exists nd.
      rewrite lookup_app_l by (eapply lookup_lt_Some, Ha). auto.
  - intros s fuel k b s1. unfold search. run. apply _search_reads.
Qed.

Lemma insert_only_adds_search_only_reads_witness :
  length [ {| data := 10; left := None; right := Some 1 |}; BSTNode_init 10 ]
  = S (length [BSTNode_init 10]).
Proof.
  assert (Hb : built [10]%Z {| store := [BSTNode_init 10]; root := Some 0 |}).
  { apply (insert_all_inserts 0). reflexivity. }
  apply (proj1 (proj1 insert_only_adds_search_only_reads [10]%Z
           {| store := [BSTNode_init 10]; root := Some 0 |}
           {| store := [ {| data := 10; left := None; right := Some 1 |};
                         BSTNode_init 10 ];
              root := Some 0 |}
           1 10%Z Hb eq_refl)).
Defined.

(** C9. Every sequence of inserts into a fresh tree runs to its end, and
    on the tree it leaves no operation fails: with a recursion depth of
    the number of keys, a further insert succeeds, a search returns a
    boolean, and both traversals come to an end.  The reason is that the
    tree is finite and has no cycle: every node found from the root is an
    object of the store and is not found again below itself. *)
Theorem operations_never_fail (K : list Z) :
  (exists s, built K s) /\
  (forall s : state,
      built K s ->
      (forall k fuel, length K <= fuel ->
         exists s', insert fuel k s = Some (tt, s')) /\
      (forall k fuel, length K <= fuel ->
         exists b, search fuel k s = Some (b, s)) /\
      (forall fuel, length K <= fuel ->
         exists out, inorder_traversal fuel (root s) s = Some (out, s)) /\
      (forall fuel, length K <= fuel ->
         exists out, level_order_traversal fuel (root s) s = Some (out, s)) /\
      (forall a, reach (store s) (root s) a -> a < length (store s)) /\
      (forall a nd,
          reach (store s) (root s) a -> store s !! a = Some nd ->
          ~ reach (store s) (left nd) a /\ ~ reach (store s) (right nd) a)).
Proof.
  split; [exact (inserts_total K _ _ models_init)|].
  intros s Hb.
  destruct (built_tree _ _ Hb) as (t & Hm & Ho & Hk & Hsz & Hh & Hlen).
  split.
  { intros k fuel Hfuel.
    destruct (insert_models s t k fuel Hm ltac:(lia)) as (s' & Hrun & _).
    eauto. }
  split.
  { intros k fuel Hfuel. eexists. apply (models_search s t); [assumption|lia]. }
  split.
  { intros fuel Hfuel. eexists. apply (models_inorder s t); [assumption|lia]. }
  split.
  { intros fuel Hfuel.
    destruct (models_level_order s t fuel Hm ltac:(lia)) as (out & Hrun & _).
    eauto. }
  split.
  { intros a Ha. destruct Hm as (Htop & Hsh & _). rewrite <- Htop in Ha.
    apply (shape_lt _ t); [assumption|]. now apply (shape_reach _ _ _ Hsh). }
  exact (models_acyclic _ _ Hm).
Qed.

Lemma operations_never_fail_witness :
  exists out,
    inorder_traversal 5 (root demo_state) demo_state = Some (out, demo_state).
Proof.
  destruct (proj2 (operations_never_fail demo_keys) demo_state demo_built)
    as (_ & _ & Hin & _).
  apply (Hin 5). simpl. lia.
Defined.

(** C10. A key that [search] finds on a tree built by inserts is still
    found after any further inserts. *)
Theorem search_stays_true (K K' : list Z) (s s1 s' : state) (k : Z)
  (fuel fuel' : nat) :
  built K s ->
  search fuel k s = Some (true, s1) ->
  inserts s K' s' ->
  length (K ++ K') <= fuel' ->
  search fuel' k s' = Some (true, s').
Proof.
  intros Hb Hfound Hmore Hfuel.
  destruct (built_tree _ _ Hb) as (t & Hm & Ho & Hk & _).
  apply (search_fuel fuel (Nat.max fuel (height t))) in Hfound; [|lia].
  rewrite (models_search s t _ k Hm) in Hfound by lia.
  injection Hfound as Hfound _.
  apply lookup_key_In in Hfound.
  pose proof (inserts_app _ _ _ _ _ Hb Hmore) as Hb'.
  apply (built_search_true (K ++ K') s' k fuel' Hb'); [|assumption].
  apply in_or_app. left.
  apply list_elem_of_In. rewrite <- Hk. now apply list_elem_of_In.
Qed.

Lemma search_stays_true_witness :
  search 6 40
    {| store := [ {| data := 50; left := Some 1; right := Some 2 |};
                  {| data := 30; left := Some 3; right := Some 4 |};
                  {| data := 70; left := Some 5; right := None |};
                  {| data := 20; left := None; right := None |};
                  {| data := 40; left := None; right := None |};
                  {| data := 60; left := None; right := None |} ];
       root := Some 0 |}
  = Some (true,
          {| store := [ {| data := 50; left := Some 1; right := Some 2 |};
                        {| data := 30; left := Some 3; right := Some 4 |};
                        {| data := 70; left := Some 5; right := None |};
                        {| data := 20; left := None; right := None |};
                        {| data := 40; left := None; right := None |};
                        {| data := 60; left := None; right := None |} ];
             root := Some 0 |}).
Proof.
  apply (search_stays_true demo_keys [60]%Z demo_state demo_state _ 40 5 6
           demo_built eq_refl).
  - apply (insert_all_inserts 2). reflexivity.
  - simpl. lia.
Defined.

(** * Further properties of the program *)

(** ** Search, keys and objects *)

(** X1. On a tree built by inserting [K], [search] answers [True] for the
    keys of [K] and [False] for every other key. *)
Theorem search_answers_membership (K : list Z) (s : state) (k : Z)
  (fuel : nat) :
  built K s -> length K <= fuel ->
  exists b, search fuel k s = Some (b, s) /\ (b = true <-> In k K).
Proof.
  intros Hb Hfuel.
  destruct (built_tree _ _ Hb) as (t & Hm & Ho & Hk & _ & Hh & _).
  exists (lookup_key k t).
  split; [apply models_search; [assumption|lia]|].
  split; intros H.
  - apply lookup_key_In in H.
    apply list_elem_of_In. rewrite <- Hk. now apply list_elem_of_In.
  - apply In_lookup_key; [assumption|].
    apply list_elem_of_In. rewrite Hk. now apply list_elem_of_In.
Qed.

Lemma search_answers_membership_witness :
  exists b,
    search 5 100 demo_state = Some (b, demo_state) /\
    (b = true <-> In 100%Z demo_keys).
Proof.
  apply (search_answers_membership demo_keys demo_state 100 5 demo_built).
  simpl. lia.
Defined.

Lemma map_insert_same {A B : Type} (f : A -> B) (l : list A) :
  forall p x y, l !! p = Some x -> f y = f x -> map f (<[p := y]> l) = map f l.
Proof.
  induction l as [|z l IH]; intros [|p] x y Hp Hf; simpl in *;
    try discriminate.
  - injection Hp as ->. now rewrite Hf.
  - f_equal. eapply IH; eassumption.
Qed.

Lemma insert_inv_data s t d fuel s' :
  models s t -> insert fuel d s = Some (tt, s') ->
  map data (store s') = map data (store s) ++ [d].
Proof.
  intros Hm Hrun. destruct (insert_inv _ _ _ _ _ Hm Hrun) as (_ & Hn & Hs).
  destruct (root s) as [r|] eqn:Hr.
  - destruct Hs as (_ & p & _ & Hat); [discriminate|].
    pose proof (attaches_at_lt _ _ _ _ Hat) as Hlt.
    destruct Hat as (nd & Hp & [(_ & _ & ->)|(_ & _ & ->)]);
      (erewrite map_insert_same;
       [now rewrite map_app
       |rewrite lookup_app_l by assumption; exact Hp
       |reflexivity]).
  - rewrite (Hn eq_refl). simpl. now rewrite map_app.
Qed.

Lemma inserts_data s K s' :
  inserts s K s' ->
  forall t, models s t -> map data (store s') = map data (store s) ++ K.
Proof.
  induction 1 as [s|s fuel k s1 K s2 Hrun Hrest IH]; intros t Hm.
  - now rewrite app_nil_r.
  - destruct (insert_inv _ _ _ _ _ Hm Hrun) as (Hm1 & _).
    rewrite (IH _ Hm1), (insert_inv_data _ _ _ _ _ Hm Hrun).
    now rewrite <- app_assoc.
Qed.

Lemma built_data K s : built K s -> map data (store s) = K.
Proof. intros Hb. exact (inserts_data _ _ _ Hb Nil models_init). Qed.

(** X2. The objects of the store are the inserted keys in the order of
    their insertion: the node made by the [i]-th insert holds the [i]-th
    key, whatever is inserted afterwards. *)
Theorem store_in_insertion_order (K : list Z) (s : state) :
  built K s -> map data (store s) = K.
Proof. apply built_data. Qed.

Lemma store_in_insertion_order_witness :
  map data (store demo_state) = demo_keys.
Proof. exact (store_in_insertion_order demo_keys demo_state demo_built). Defined.

Lemma built_locs K s t :
  built K s -> models s t -> Permutation (locs t) (seq 0 (length (store s))).
Proof.
  intros Hb Hm.
  destruct (built_tree _ _ Hb) as (t' & Hm' & _ & _ & Hsz & _ & Hlen).
  assert (t' = t) as ->.
  { destruct Hm as (H1 & H2 & _), Hm' as (H1' & H2' & _).
    apply (shape_unique (store s)); congruence. }
  destruct Hm as (_ & Hsh & Hnd).
  apply submseteq_length_Permutation.
  - apply NoDup_submseteq; [assumption|].
    intros x Hx. apply elem_of_seq. pose proof (shape_lt _ _ _ Hsh Hx). lia.
  - rewrite length_seq, length_locs. lia.
Qed.

(** X3. The store of a tree built by inserting [K] holds [length K] node
    objects and every one of them is found from the root: the tree is in
    one piece and no node is left aside. *)
Theorem every_object_in_tree (K : list Z) (s : state) :
  built K s ->
  length (store s) = length K /\
  forall a, a < length (store s) <-> reach (store s) (root s) a.
Proof.
  intros Hb.
  destruct (built_tree _ _ Hb) as (t & Hm & _ & _ & _ & _ & Hlen).
  split; [exact Hlen|].
  pose proof (built_locs _ _ _ Hb Hm) as Hperm.
  destruct Hm as (Htop & Hsh & _). rewrite <- Htop.
  intros a. rewrite (shape_reach _ _ a Hsh), Hperm, elem_of_seq. lia.
Qed.

Lemma every_object_in_tree_witness :
  length (store demo_state) = length demo_keys /\
  forall a, a < length (store demo_state)
            <-> reach (store demo_state) (root demo_state) a.
Proof. exact (every_object_in_tree demo_keys demo_state demo_built). Defined.

Lemma inserts_root s K s' :
  inserts s K s' ->
  forall t, models s t -> root s <> None -> root s' = root s.
Proof.
  induction 1 as [s|s fuel k s1 K s2 Hrun Hrest IH]; intros t Hm Hne;
    [reflexivity|].
  destruct (insert_inv _ _ _ _ _ Hm Hrun) as (Hm1 & _ & Hs).
  destruct (Hs Hne) as (Hroot & _).
  rewrite (IH _ Hm1) by congruence. exact Hroot.
Qed.

Lemma level_order_loop_head fuel a q s out s' :
  level_order_loop fuel (a :: q) s = Some (out, s') ->
  exists nd rest, store s !! a = Some nd /\ out = (a, data nd) :: rest.
Proof.
  destruct fuel as [|fuel]; [discriminate|]. simpl. intros H.
  apply bind_Some in H as (k & s1 & H1 & H).
  apply bind_Some in H as (l & s2 & H2 & H).
  apply bind_Some in H as (r & s3 & H3 & H).
  apply bind_Some in H as (rest & s4 & H4 & H).
  unfold get_data, get_field in H1.
  destruct (store s !! a) as [nd|]; [|discriminate].
  injection H1 as <- <-. injection H as <- _. eauto.
Qed.

(** X4. The first key inserted stays at the root: whatever is inserted
    after it, the root is the first node object, it holds the first key,
    and the level-order traversal prints that key first.  Nothing is ever
    rotated or re-rooted. *)
Theorem first_key_stays_root (k : Z) (K : list Z) (s : state) :
  built (k :: K) s ->
  root s = Some 0 /\
  (exists nd, store s !! 0 = Some nd /\ data nd = k) /\
  (forall fuel out s',
      level_order_traversal fuel (root s) s = Some (out, s') ->
      exists rest, out = (0, k) :: rest).
Proof.
  intros Hb.
  pose proof (built_data _ _ Hb) as Hdata.
  inversion Hb as [|? fuel0 ? s1 ? ? Hrun Hrest]; subst.
  destruct (insert_inv _ _ _ _ _ models_init Hrun) as (Hm1 & Hs1 & _).
  specialize (Hs1 eq_refl). subst s1. simpl in *.
  assert (Hroot : root s = Some 0).
  { now rewrite (inserts_root _ _ _ Hrest _ Hm1). }
  assert (Hnd : exists nd, store s !! 0 = Some nd /\ data nd = k).
  { destruct (store s) as [|nd h]; [discriminate|].
    injection Hdata as Hd _. exists nd. auto. }
  split; [exact Hroot|]. split; [exact Hnd|].
  intros fuel out s' Hlo. rewrite Hroot in Hlo. simpl in Hlo.
  destruct (level_order_loop_head _ _ _ _ _ _ Hlo) as (nd & rest & H0 & ->).
  destruct Hnd as (nd' & H0' & <-). rewrite H0 in H0'. injection H0' as ->.
  eauto.
Qed.

Lemma first_key_stays_root_witness :
  root demo_state = Some 0 /\
  (exists nd, store demo_state !! 0 = Some nd /\ data nd = 50%Z) /\
  (forall fuel out s',
      level_order_traversal fuel (root demo_state) demo_state
        = Some (out, s') ->
      exists rest, out = (0, 50%Z) :: rest).
Proof.
  exact (first_key_stays_root 50 [30; 70; 20; 40]%Z demo_state demo_built).
Defined.

(** ** In-order traversal *)

(** X5. The in-order output depends on which keys were inserted and how
    often, not on the order of the inserts: two trees built from
    rearrangements of the same keys print the same sequence. *)
Theorem inorder_ignores_insertion_order (K1 K2 : list Z) (s1 s2 : state)
  (fuel : nat) :
  built K1 s1 -> built K2 s2 -> Permutation K1 K2 -> length K1 <= fuel ->
  exists out,
    inorder_traversal fuel (root s1) s1 = Some (out, s1) /\
    inorder_traversal fuel (root s2) s2 = Some (out, s2).
Proof.
  intros Hb1 Hb2 Hperm Hfuel.
  destruct (built_tree _ _ Hb1) as (t1 & Hm1 & Ho1 & Hk1 & _ & Hh1 & _).
  destruct (built_tree _ _ Hb2) as (t2 & Hm2 & Ho2 & Hk2 & _ & Hh2 & _).
  rewrite <- (Permutation_length Hperm) in Hh2.
  exists (keys t1).
  split; [apply models_inorder; [assumption|lia]|].
  replace (keys t1) with (keys t2);
    [apply models_inorder; [assumption|lia]|].
  apply (Sorted_unique_strong Z.le).
  - intros x1 x2 _ _ H12 H21. lia.
  - now apply ordered_sorted.
  - now apply ordered_sorted.
  - now rewrite Hk1, Hk2, Hperm.
Qed.

Lemma demo_sorted_built : built [20; 30; 40; 50; 70]%Z demo_sorted_state.
Proof. apply (insert_all_inserts 5). reflexivity. Qed.

Lemma inorder_ignores_insertion_order_witness :
  exists out,
    inorder_traversal 5 (root demo_state) demo_state = Some (out, demo_state) /\
    inorder_traversal 5 (root demo_sorted_state) demo_sorted_state
    = Some (out, demo_sorted_state).
Proof.
  apply (inorder_ignores_insertion_order demo_keys [20; 30; 40; 50; 70]%Z
           demo_state demo_sorted_state 5 demo_built demo_sorted_built).
  - unfold demo_keys.
    apply (Permutation_trans (l' := [30; 50; 70; 20; 40]%Z));
      [apply perm_swap|].
    apply (Permutation_trans (l' := [30; 50; 20; 70; 40]%Z));
      [do 2 apply perm_skip; apply perm_swap|].
    apply (Permutation_trans (l' := [30; 20; 50; 70; 40]%Z));
      [apply perm_skip, perm_swap|].
    apply (Permutation_trans (l' := [20; 30; 50; 70; 40]%Z));
      [apply perm_swap|].
    apply (Permutation_trans (l' := [20; 30; 50; 40; 70]%Z));
      [do 3 apply perm_skip; apply perm_swap|].
    do 2 apply perm_skip. apply perm_swap.
  - simpl. lia.
Defined.




(** ** No rebalancing: sorted input gives a chain *)

Lemma inserts_grow_all s K s' :
  inserts s K s' ->
  forall t, models s t -> models s' (grow_all (length (store s)) K t).
Proof.
  induction 1 as [s|s fuel k s1 K s2 Hrun Hrest IH]; intros t Hm;
    [exact Hm|].
  destruct (insert_inv _ _ _ _ _ Hm Hrun) as (Hm1 & _).
  specialize (IH _ Hm1).
  rewrite (insert_inv_length _ _ _ _ _ Hm Hrun) in IH. exact IH.
Qed.

Lemma grow_right_spine d K :
  forall i, Forall (fun x => (x <= d)%Z) K ->
            grow (i + length K) d (right_spine i K) = right_spine i (K ++ [d]).
Proof.
  induction K as [|k K IH]; intros i Hall; simpl.
  - now rewrite Nat.add_0_r.
  - inversion Hall as [|? ? Hk Hrest]; subst.
    assert ((d <? k)%Z = false) as -> by (apply Z.ltb_ge; lia).
    replace (i + S (length K)) with (S i + length K) by lia.
    now rewrite (IH (S i) Hrest).
Qed.

Lemma grow_left_spine d K :
  forall i, Forall (fun x => (d < x)%Z) K ->
            grow (i + length K) d (left_spine i K) = left_spine i (K ++ [d]).
Proof.
  induction K as [|k K IH]; intros i Hall; simpl.
  - now rewrite Nat.add_0_r.
  - inversion Hall as [|? ? Hk Hrest]; subst.
    assert ((d <? k)%Z = true) as -> by (apply Z.ltb_lt; lia).
    replace (i + S (length K)) with (S i + length K) by lia.
    now rewrite (IH (S i) Hrest).
Qed.

Lemma grow_all_right_spine K2 :
  forall K1 i,
    StronglySorted Z.le (K1 ++ K2) ->
    grow_all (i + length K1) K2 (right_spine i K1) = right_spine i (K1 ++ K2).
Proof.
  induction K2 as [|k K2 IH]; intros K1 i Hs; simpl.
  - now rewrite app_nil_r.
  - rewrite grow_right_spine.
    + replace (S (i + length K1)) with (i + length (K1 ++ [k]))
        by (rewrite length_app; simpl; lia).
      rewrite IH; rewrite <- app_assoc; [reflexivity|exact Hs].
    + apply StronglySorted_app in Hs as (Hle & _).
      apply Forall_forall. intros x Hx. apply Hle; [assumption|left].
Qed.

Lemma grow_all_left_spine K2 :
  forall K1 i,
    StronglySorted (fun x y => (y < x)%Z) (K1 ++ K2) ->
    grow_all (i + length K1) K2 (left_spine i K1) = left_spine i (K1 ++ K2).
Proof.
  induction K2 as [|k K2 IH]; intros K1 i Hs; simpl.
  - now rewrite app_nil_r.
  - rewrite grow_left_spine.
    + replace (S (i + length K1)) with (i + length (K1 ++ [k]))
        by (rewrite length_app; simpl; lia).
      rewrite IH; rewrite <- app_assoc; [reflexivity|exact Hs].
    + apply StronglySorted_app in Hs as (Hle & _).
      apply Forall_forall. intros x Hx. apply Hle; [assumption|left].
Qed.

Lemma shape_right_spine h K :
  forall i, shape h (right_spine i K) ->
    forall j nd, i <= j < i + length K -> h !! j = Some nd ->
      left nd = None /\
      right nd = if decide (S j < i + length K) then Some (S j) else None.
Proof.
  induction K as [|k K IH]; intros i Hsh j nd Hj Hnd; simpl in *; [lia|].
  inversion Hsh as [|? ? ? ? Hi _ Hr]; subst.
  destruct (decide (j = i)) as [->|Hne].
  - rewrite Hi in Hnd. injection Hnd as <-. simpl. split; [reflexivity|].
    destruct K; simpl; case_decide; (reflexivity || lia).
  - destruct (IH (S i) Hr j nd ltac:(lia) Hnd) as (Hl & Hr').
    split; [exact Hl|]. rewrite Hr'.
    repeat case_decide; (reflexivity || lia).
Qed.

Lemma shape_left_spine h K :
  forall i, shape h (left_spine i K) ->
    forall j nd, i <= j < i + length K -> h !! j = Some nd ->
      right nd = None /\
      left nd = if decide (S j < i + length K) then Some (S j) else None.
Proof.
  induction K as [|k K IH]; intros i Hsh j nd Hj Hnd; simpl in *; [lia|].
  inversion Hsh as [|? ? ? ? Hi Hl _]; subst.
  destruct (decide (j = i)) as [->|Hne].
  - rewrite Hi in Hnd. injection Hnd as <-. simpl. split; [reflexivity|].
    destruct K; simpl; case_decide; (reflexivity || lia).
  - destruct (IH (S i) Hl j nd ltac:(lia) Hnd) as (Hr & Hl').
    split; [exact Hr|]. rewrite Hl'.
    repeat case_decide; (reflexivity || lia).
Qed.

(** X7. Inserting keys in non-decreasing order gives a chain to the right:
    node [j] holds the [j]-th key, has no left child, and its right child
    is node [j + 1] (the last node has none).  The tree is as deep as it
    has keys; nothing rebalances it. *)
Theorem ascending_inserts_chain_right (K : list Z) (s : state) :
  Sorted Z.le K -> built K s ->
  forall j nd,
    store s !! j = Some nd ->
    K !! j = Some (data nd) /\
    left nd = None /\
    right nd = if decide (S j < length K) then Some (S j) else None.
Proof.
  intros Hs Hb j nd Hnd.
  pose proof (built_data _ _ Hb) as Hdata.
  split.
  { rewrite <- Hdata. change (map data (store s)) with (data <$> store s).
    now rewrite list_lookup_fmap, Hnd. }
  pose proof (inserts_grow_all _ _ _ Hb Nil models_init) as (_ & Hsh & _).
  simpl in Hsh.
  pose proof (grow_all_right_spine K [] 0 (Sorted_StronglySorted Z.le K Hs)) as E.
  simpl in E. rewrite E in Hsh.
  apply (shape_right_spine _ _ 0 Hsh j nd); [|assumption].
  apply lookup_lt_Some in Hnd.
  rewrite <- Hdata, length_map. lia.
Qed.

Lemma ascending_inserts_chain_right_witness :
  [20; 30; 40; 50; 70]%Z !! 3 = Some 50%Z /\
  @None nat = None /\
  Some 4 = if decide (4 < length [20; 30; 40; 50; 70]%Z) then Some 4 else None.
Proof.
  apply (ascending_inserts_chain_right [20; 30; 40; 50; 70]%Z
           demo_sorted_state
           ltac:(repeat constructor; lia) demo_sorted_built
           3 {| data := 50; left := None; right := Some 4 |} eq_refl).
Defined.

(** X8. Inserting keys in strictly decreasing order gives a chain to the
    left: node [j] holds the [j]-th key, has no right child, and its left
    child is node [j + 1] (the last node has none). *)
Theorem descending_inserts_chain_left (K : list Z) (s : state) :
  Sorted (fun x y => (y < x)%Z) K -> built K s ->
  forall j nd,
    store s !! j = Some nd ->
    K !! j = Some (data nd) /\
    right nd = None /\
    left nd = if decide (S j < length K) then Some (S j) else None.
Proof.
  intros Hs Hb j nd Hnd.
  pose proof (built_data _ _ Hb) as Hdata.
  split.
  { rewrite <- Hdata. change (map data (store s)) with (data <$> store s).
    now rewrite list_lookup_fmap, Hnd. }
  pose proof (inserts_grow_all _ _ _ Hb Nil models_init) as (_ & Hsh & _).
  simpl in Hsh.
  assert (Hss : StronglySorted (fun x y => (y < x)%Z) K).
  { apply Sorted.Sorted_StronglySorted; [|assumption].
    intros x y z Hxy Hyz. lia. }
  pose proof (grow_all_left_spine K [] 0 Hss) as E.
  simpl in E. rewrite E in Hsh.
  apply (shape_left_spine _ _ 0 Hsh j nd); [|assumption].
  apply lookup_lt_Some in Hnd.
  rewrite <- Hdata, length_map. lia.
Qed.

Lemma descending_inserts_chain_left_witness :
  [3; 2; 1]%Z !! 1 = Some 2%Z /\
  @None nat = None /\
  Some 2 = if decide (2 < length [3; 2; 1]%Z) then Some 2 else None.
Proof.
  assert (Hb : built [3; 2; 1]%Z
            {| store := [ {| data := 3; left := Some 1; right := None |};
                          {| data := 2; left := Some 2; right := None |};
                          {| data := 1; left := None; right := None |} ];
               root := Some 0 |}).
  { apply (insert_all_inserts 3). reflexivity. }
  apply (descending_inserts_chain_left [3; 2; 1]%Z _
           ltac:(repeat constructor; lia) Hb
           1 {| data := 2; left := Some 2; right := None |} eq_refl).
Defined.

(** ** Paths from the root *)

Lemma route_walk h p :
  forall t b, shape h t -> route h (top t) p b -> top (walk p t) = Some b.
Proof.
  induction p as [|d p IH]; intros t b Hsh Hr.
  - inversion Hr; subst. simpl. congruence.
  - destruct Hsh as [|a l k r Ha Hl Hr']; [inversion Hr|].
    simpl in Hr.
    inversion Hr as [|? nd ? ? Hnd Hrest|? nd ? ? Hnd Hrest]; subst;
      rewrite Ha in Hnd; injection Hnd as <-; simpl in *; auto.
Qed.

Lemma walk_route h p :
  forall t b, shape h t -> top (walk p t) = Some b -> route h (top t) p b.
Proof.
  induction p as [|d p IH]; intros t b Hsh Hw.
  - simpl in Hw. rewrite Hw. constructor.
  - destruct Hsh as [|a l k r Ha Hl Hr]; [destruct d; discriminate|].
    destruct d; simpl in *.
    + eapply route_left; [exact Ha|]. simpl. auto.
    + eapply route_right; [exact Ha|]. simpl. auto.
Qed.

Lemma walk_locs p :
  forall t b, top (walk p t) = Some b -> b ∈ locs t.
Proof.
  induction p as [|d p IH]; intros t b Hw.
  - destruct t; [discriminate|]. simpl in *. injection Hw as ->. set_solver.
  - destruct t as [|a l k r]; [destruct d; discriminate|].
    destruct d; simpl in *; apply IH in Hw; set_solver.
Qed.

Lemma locs_walk t :
  forall b, b ∈ locs t -> exists p, top (walk p t) = Some b.
Proof.
  induction t as [|a l IHl k r IHr]; intros b Hb; simpl in Hb.
  - inversion Hb.
  - apply elem_of_app in Hb. destruct Hb as [Hb|Hb].
    + destruct (IHl _ Hb) as (p & Hp). now exists (GoLeft :: p).
    + apply elem_of_cons in Hb. destruct Hb as [->|Hb].
      * now exists [].
      * destruct (IHr _ Hb) as (p & Hp). now exists (GoRight :: p).
Qed.

Lemma walk_unique p :
  forall t q b,
    NoDup (locs t) ->
    top (walk p t) = Some b -> top (walk q t) = Some b -> p = q.
Proof.
  induction p as [|d p IH]; intros t q b Hnd Hp Hq.
  - destruct q as [|e q]; [reflexivity|exfalso].
    destruct t as [|a l k r]; [discriminate|].
    simpl in Hp. injection Hp as ->. simpl in Hnd.
    apply NoDup_app in Hnd as (_ & Hdisj & Hnd).
    apply NoDup_cons in Hnd as (Hbr & _).
    destruct e; simpl in Hq; apply walk_locs in Hq.
    + apply (Hdisj _ Hq). set_solver.
    + contradiction.
  - destruct t as [|a l k r]; [destruct d; discriminate|].
    simpl in Hnd.
    apply NoDup_app in Hnd as (Hndl & Hdisj & Hnd).
    apply NoDup_cons in Hnd as (Har & Hndr).
    destruct q as [|e q].
    + exfalso. simpl in Hq. injection Hq as ->.
      destruct d; simpl in Hp; apply walk_locs in Hp.
      * apply (Hdisj _ Hp). set_solver.
      * contradiction.
    + destruct d, e; simpl in Hp, Hq.
      * f_equal. exact (IH l q b Hndl Hp Hq).
      * exfalso. apply walk_locs in Hp, Hq. apply (Hdisj _ Hp). set_solver.
      * exfalso. apply walk_locs in Hp, Hq. apply (Hdisj _ Hq). set_solver.
      * f_equal. exact (IH r q b Hndr Hp Hq).
Qed.

(** X9. Every node object of a tree built by inserts is reached from the
    root by exactly one path of left and right turns: no node has two
    parents, no subtree is shared, and no path comes back to a node. *)
Theorem one_path_to_each_node (K : list Z) (s : state) (a : nat) :
  built K s -> a < length (store s) ->
  exists p,
    route (store s) (root s) p a /\
    forall q, route (store s) (root s) q a -> q = p.
Proof.
  intros Hb Ha.
  destruct (built_tree _ _ Hb) as (t & Hm & _).
  pose proof (built_locs _ _ _ Hb Hm) as Hperm.
  destruct Hm as (Htop & Hsh & Hnd). rewrite <- Htop.
  assert (Hin : a ∈ locs t) by (rewrite Hperm, elem_of_seq; lia).
  destruct (locs_walk _ _ Hin) as (p & Hp).
  exists p. split; [now apply walk_route|].
  intros q Hq. apply (route_walk _ _ _ _ Hsh) in Hq.
  eapply walk_unique; eassumption.
Qed.

Lemma one_path_to_each_node_witness :
  exists p,
    route (store demo_state) (root demo_state) p 4 /\
    forall q, route (store demo_state) (root demo_state) q 4 -> q = p.
Proof.
  apply (one_path_to_each_node demo_keys demo_state 4 demo_built).
  simpl. lia.
Defined.

(** ** The order of the level-order traversal *)
















(** The order on paths tells left from right and short from long. *)
Example before_examples :
  before [] [GoRight] /\ before [GoLeft] [GoRight] /\
  before [GoLeft; GoRight] [GoRight; GoLeft] /\
  ~ before [GoRight] [GoLeft] /\ ~ before [GoLeft; GoLeft] [GoRight] /\
  ~ before [GoLeft] [GoLeft].
Proof.
  unfold before. simpl.
  split; [left; lia|].
  split; [right; split; [reflexivity|exact I]|].
  split; [right; split; [reflexivity|exact I]|].
  split; [intros [H|[_ H]]; [lia|exact H]|].
  split; [intros [H|[H _]]; lia|].
  intros [H|[_ H]]; [lia|exact H].
Qed.

(** X11. [level_order_traversal] may be started at any node of the tree: it
    then dequeues exactly the nodes found from that node, each of them
    once, and prints the key each one holds. *)
Theorem level_order_from_any_node (K : list Z) (s : state) (a : nat)
  (fuel : nat) :
  built K s -> reach (store s) (root s) a -> length K <= fuel ->
  exists out,
    level_order_traversal fuel (Some a) s = Some (out, s) /\
    NoDup (map fst out) /\
    (forall b, In b (map fst out) <-> reach (store s) (Some a) b) /\
    (forall b k, In (b, k) out ->
                 exists nd, store s !! b = Some nd /\ data nd = k).
Proof.
  intros Hb Hreach Hfuel.
  destruct (built_tree _ _ Hb) as (t & (Htop & Hsh & Hnd) & _ & _ & Hsz & _).
  rewrite <- Htop in Hreach. apply (shape_reach _ _ _ Hsh) in Hreach.
  destruct (locs_subtree _ _ Hreach) as (l & k0 & r & Hsub).
  set (u := Fork a l k0 r) in *.
  pose proof (subtree_shape _ _ _ Hsub Hsh) as Hu.
  pose proof (subtree_NoDup _ _ Hsub Hnd) as Hndu.
  assert (Hsize : size u <= fuel).
  { assert (size u <= size t); [|lia].
    rewrite <- !length_locs. apply submseteq_length, NoDup_submseteq.
    - assumption.
    - intros x. now apply subtree_locs. }
  destruct (level_order_loop_cells s fuel [u]) as (out & Hrun & Hperm).
  { constructor; [assumption|constructor]. }
  { change (sum_list_with size [u]) with (size u + 0). lia. }
  change (concat (map cells [u])) with (cells u ++ []) in Hperm.
  rewrite app_nil_r in Hperm.
  exists out. split; [exact Hrun|].
  split; [rewrite Hperm, <- locs_cells; exact Hndu|].
  split.
  - intros b. rewrite <- list_elem_of_In.
    change (map fst out) with (fst <$> out).
    rewrite Hperm. change (fst <$> cells u) with (map fst (cells u)).
    rewrite <- locs_cells.
    symmetry. exact (shape_reach _ u b Hu).
  - intros b k Hin. apply list_elem_of_In in Hin. rewrite Hperm in Hin.
    destruct (cells_subtree _ _ _ Hin) as (l' & r' & Hsub').
    eexists. split; [exact (shape_lookup _ _ _ _ _ _ Hu Hsub')|reflexivity].
Qed.

Lemma level_order_from_any_node_witness :
  exists out,
    level_order_traversal 5 (Some 1) demo_state = Some (out, demo_state) /\
    NoDup (map fst out) /\
    (forall b, In b (map fst out) <-> reach (store demo_state) (Some 1) b) /\
    (forall b k, In (b, k) out ->
                 exists nd, store demo_state !! b = Some nd /\ data nd = k).
Proof.
  apply (level_order_from_any_node demo_keys demo_state 1 5 demo_built).
  - eapply reach_left; [reflexivity|]. apply reach_here.
  - simpl. lia.
Defined.
